(** * dti.py: the rendering core of [dti/models.py]

    A shallow embedding of [Neopet.valid_poses], [Neopet._render_items],
    [Neopet._render_layers] and [Neopet.render], with the properties of the
    pose fallback, the item-conflict scan, the layer ordering and the
    compositing loop. *)

From Stdlib Require Import DecimalString.
From stdpp Require Import base numbers list gmap strings sorting.

Local Open Scope Z_scope.

(** ** Data model *)

Inductive LayerImageSize := SIZE_150 | SIZE_300 | SIZE_600.

(** Modelled from the spec: [enums.PetPose] is not part of the sources at hand.
    The spec has every pose stand for one bit of an integer mask, and the code
    uses the members as integers ([(self._valid_poses & pose) == pose]), so a
    pose is represented by its integer value. *)
Abbreviation PetPose := Z.

Record Species := { Species_id : Z; Species_name : string }.
Record Color := { Color_id : Z; Color_name : string }.

Record Zone := { Zone_id : Z; Zone_depth : Z; Zone_label : string }.

Record AppearanceLayer := {
  Layer_id : string;
  Layer_zone : Zone;
  Layer_image_url : string;
  Layer_asset_type : string;
  Layer_asset_remote_id : string
}.

Record PetAppearance := {
  PetAppearance_id : string;
  PetAppearance_body_id : string;
  PetAppearance_species : Species;
  PetAppearance_color : Color;
  PetAppearance_pose : PetPose;
  PetAppearance_layers : list AppearanceLayer;
  PetAppearance_restricted_zones : list Zone
}.

Record ItemAppearance := {
  ItemAppearance_id : string;
  ItemAppearance_layers : list AppearanceLayer;
  ItemAppearance_restricted_zones : list Zone
}.

(** [Item.appearance] is [None] when the payload has no ["appearanceOn"]. *)
Record Item := {
  Item_id : Z;
  Item_name : string;
  Item_appearance : option ItemAppearance
}.

#[global] Instance Zone_eq_dec : EqDecision Zone.
Proof. solve_decision. Defined.
#[global] Instance AppearanceLayer_eq_dec : EqDecision AppearanceLayer.
Proof. solve_decision. Defined.
#[global] Instance ItemAppearance_eq_dec : EqDecision ItemAppearance.
Proof. solve_decision. Defined.
#[global] Instance Item_eq_dec : EqDecision Item.
Proof. solve_decision. Defined.

(** ** Exceptions and the error monad

    Python exceptions are modelled by an error monad: a call either returns a
    value or raises.  [BrokenAssetImage] carries the four values whose [repr]
    makes up its message; [OtherError] stands for the exceptions of the
    libraries outside the sources. *)

Inductive exn :=
| AttributeError
| UnboundLocalError
| KeyError
| MissingPetAppearance (msg : string)
| BrokenAssetImage (species : Species) (color : Color) (pose : PetPose)
    (layer : AppearanceLayer)
| OtherError (name : string).

Inductive result (A : Type) :=
| Ok (a : A)
| Raise (e : exn).
Arguments Ok {A} a.
Arguments Raise {A} e.

#[global] Instance result_ret : MRet result := fun A a => Ok a.
#[global] Instance result_bind : MBind result := fun A B f m =>
  match m with
  | Ok a => f a
  | Raise e => Raise e
  end.

(** A [for] loop whose body may raise: the loop state is threaded through the
    elements in order and the first exception ends the loop. *)
Fixpoint for_each {A S : Type} (body : S → A → result S) (s : S) (l : list A)
  : result S :=
  match l with
  | [] => Ok s
  | x :: l' => s' ← body s x; for_each body s' l'
  end.

(** ** Equality of [mixins.Object] values *)

(** Modelled from the spec: [mixins.Object], the base class that gives [Item]
    and [Zone] their [__eq__] and [__hash__], is not part of the sources at
    hand; the spec has such values compared by their integer id, never by
    structure. *)
Definition Item_eqb (a b : Item) : bool := bool_decide (Item_id a = Item_id b).

(** Modelled from the spec: [set(zones)].  A Python set hashes and compares
    its members with the [__hash__] and [__eq__] of [mixins.Object], that is
    by id, so it is the finite set of the ids of the zones. *)
Definition zone_set (zones : list Zone) : gset Z := list_to_set (Zone_id <$> zones).

(** Truth value of a set: non-empty. *)
Definition truthy (s : gset Z) : bool := bool_decide (s ≠ ∅).

(** [x in l] on a list of items. *)
Definition Item_in (x : Item) (l : list Item) : bool := existsb (Item_eqb x) l.

(** [l.remove(x)]: drops the first member equal to [x].  (Python raises
    [ValueError] when there is none; the only call is guarded by [in].) *)
Fixpoint list_remove (x : Item) (l : list Item) : list Item :=
  match l with
  | [] => []
  | y :: l' => if Item_eqb y x then l' else y :: list_remove x l'
  end.

(** ** ItemAppearance.occupies *)
Definition occupies (a : ItemAppearance) : list Zone :=
  Layer_zone <$> ItemAppearance_layers a.

(** [item.appearance.<attr>]: raises [AttributeError] on [None]. *)
Definition appearance_of (item : Item) : result ItemAppearance :=
  match Item_appearance item with
  | Some a => Ok a
  | None => Raise AttributeError
  end.

(** ** Neopet._render_items *)

(** The two intersections of lines 403-408 and the test of line 410. *)
Definition conflict (item temp : ItemAppearance) : bool :=
  let intersect_1 :=
    zone_set (occupies item)
      ∩ zone_set (occupies temp ++ ItemAppearance_restricted_zones temp) in
  let intersect_2 :=
    zone_set (occupies temp)
      ∩ zone_set (occupies item ++ ItemAppearance_restricted_zones item) in
  truthy intersect_1 || truthy intersect_2.

(** Body of the inner loop, [for temp in self.items]. *)
Definition scan_step (item : Item) (temp_items : list Item) (temp : Item)
  : result (list Item) :=
  if Item_eqb item temp then Ok temp_items
  else if negb (Item_in temp temp_items) then Ok temp_items
  else
    ia ← appearance_of item;
    ta ← appearance_of temp;
    if conflict ia ta then Ok (list_remove temp temp_items) else Ok temp_items.

(** Body of the outer loop, [for item in self.items]. *)
Definition render_items_step (items : list Item) (temp_items : list Item)
    (item : Item) : result (list Item) :=
  temp_items' ← for_each (scan_step item) temp_items items;
  Ok (temp_items' ++ [item]).

Definition _render_items (items : list Item) : result (list Item) :=
  for_each (render_items_step items) [] items.

(** ** Neopet *)

Record Neopet := {
  Neopet_species : Species;
  Neopet_color : Color;
  Neopet_appearances : list PetAppearance;
  Neopet_items : list Item;
  Neopet_name : option string;
  Neopet_size : option LayerImageSize;
  Neopet_pose : PetPose;
  _valid_poses : Z
}.

(** [override_pose or self.pose]: the left operand when it is truthy ([None]
    and the integer zero are not). *)
Definition pose_or (override_pose : option PetPose) (default : PetPose) : PetPose :=
  match override_pose with
  | Some p => if bool_decide (p = 0) then default else p
  | None => default
  end.

Definition get_pet_appearance (self : Neopet) (pose : PetPose) : option PetAppearance :=
  List.find (λ appearance, bool_decide (PetAppearance_pose appearance = pose))
    (Neopet_appearances self).

Definition check (self : Neopet) (pose : PetPose) : bool :=
  bool_decide (Z.land (_valid_poses self) pose = pose).

Section pose_table.
(** [constants.CLOSEST_POSES_IN_ORDER], a dict from a pose to its substitutes
    in order of closeness, is not part of the sources at hand. *)
Variable CLOSEST_POSES_IN_ORDER : gmap Z (list PetPose).

Definition valid_poses (self : Neopet) (override_pose : option PetPose)
  : result (list PetPose) :=
  let pose := pose_or override_pose (Neopet_pose self) in
  match CLOSEST_POSES_IN_ORDER !! pose with
  | Some substitutes => Ok (List.filter (check self) substitutes)
  | None => Raise KeyError
  end.
End pose_table.

(** ** Neopet._render_layers *)

(** [str] of an integer. *)
Definition str_int (n : Z) : string := NilZero.string_of_int (Z.to_int n).

(** The double-quote character. *)
Definition dquote : string := String (Ascii.ascii_of_nat 34) EmptyString.

(** The two messages of [MissingPetAppearance], lines 425 and 434. *)
Definition missing_message (species_id color_id : Z) (any_pose : bool) : string :=
  "Pet Appearance <" +:+ dquote +:+ str_int species_id +:+ "-"
    +:+ str_int color_id +:+ dquote +:+ "> does not exist"
    +:+ (if any_pose then " with any poses." else ".").

(** [sorted(l, key=key)]: the stable sort by ascending key.  The result of a
    stable sort does not depend on the sorting algorithm; it is computed here
    by insertion. *)
Fixpoint insert_by {A : Type} (key : A → Z) (x : A) (l : list A) : list A :=
  match l with
  | [] => [x]
  | y :: l' => if bool_decide (key y < key x) then y :: insert_by key x l' else x :: y :: l'
  end.

Definition sorted {A : Type} (key : A → Z) (l : list A) : list A :=
  foldr (insert_by key) [] l.

Definition key_le {A : Type} (key : A → Z) (x y : A) : Prop := key x ≤ key y.

(** Lines 437-453: the layers of the pet appearance and of the items, without
    those on a restricted zone, bottom to top. *)
Definition collect_step (st : list AppearanceLayer * list Zone) (item : Item)
  : result (list AppearanceLayer * list Zone) :=
  let '(all_layers, item_restricted_zones) := st in
  a ← appearance_of item;
  Ok (all_layers ++ ItemAppearance_layers a,
      item_restricted_zones ++ ItemAppearance_restricted_zones a).

Definition order_layers (pet_appearance : PetAppearance) (items : list Item)
  : result (list AppearanceLayer) :=
  st ← for_each collect_step (PetAppearance_layers pet_appearance, []) items;
  let '(all_layers, item_restricted_zones) := st in
  let all_restricted_zones :=
    zone_set (item_restricted_zones ++ PetAppearance_restricted_zones pet_appearance) in
  let visible_layers :=
    List.filter
      (λ layer, bool_decide (Zone_id (Layer_zone layer) ∉ all_restricted_zones))
      all_layers in
  Ok (sorted (λ layer, Zone_depth (Layer_zone layer)) visible_layers).

Definition _render_layers (CLOSEST_POSES_IN_ORDER : gmap Z (list PetPose))
    (self : Neopet) (pose : option PetPose) : result (list AppearanceLayer) :=
  valid ← valid_poses CLOSEST_POSES_IN_ORDER self pose;
  match valid with
  | [] =>
      Raise (MissingPetAppearance
               (missing_message (Species_id (Neopet_species self))
                  (Color_id (Neopet_color self)) true))
  | pose :: _ =>
      match get_pet_appearance self pose with
      | None =>
          Raise (MissingPetAppearance
                   (missing_message (Species_id (Neopet_species self))
                      (Color_id (Neopet_color self)) false))
      | Some pet_appearance =>
          items ← _render_items (Neopet_items self);
          order_layers pet_appearance items
      end
  end.

(** ** Neopet.render *)

(** The imaging library (PIL) and the HTTP client are outside the sources; the
    code depends on them through these operations only. *)
Class Imaging := {
  Image : Type;
  (** [Image.new("RGBA", (size, size))] *)
  Image_new : Z → Image;
  (** [Image.open(BytesIO(data))]; raises when the bytes are no image. *)
  Image_open : list Byte.byte → result Image;
  Image_mode : Image → string;
  Image_convert : Image → string → result Image;
  Image_alpha_composite : Image → Image → result Image
}.

Class Http := {
  get_binary_data : string → result (list Byte.byte)
}.

Definition sizes (size : LayerImageSize) : Z :=
  match size with
  | SIZE_150 => 150
  | SIZE_300 => 300
  | SIZE_600 => 600
  end.

(** [asyncio.gather] over the downloads: the results in the order of the
    layers, or the exception of a failed download (the first in layer order
    here; with several failures Python reports the one that fails first in
    time). *)
Fixpoint gather `{Http} (urls : list string) : result (list (list Byte.byte)) :=
  match urls with
  | [] => Ok []
  | url :: urls' =>
      image ← get_binary_data url;
      images ← gather urls';
      Ok (image :: images)
  end.

Section blend.
Context `{Imaging}.

(** The state of the compositing loop: the canvas, and the local variable
    [foreground], which is unbound until an image has been opened. *)
Definition blend_state : Type := Image * option Image.

(** The [finally] clause, entered with the exception raised in the [try]
    statement, if any, still pending.  [continue] inside [finally] discards
    the pending exception; running off the end of the clause re-raises it. *)
Definition finally_clause (canvas : Image) (foreground : option Image)
    (pending : option exn) : result blend_state :=
  match foreground with
  | None => Raise UnboundLocalError
  | Some foreground =>
      if bool_decide (Image_mode foreground = "1") then Ok (canvas, Some foreground)
      else
        foreground ←
          (if bool_decide (Image_mode foreground ≠ "RGBA")
           then Image_convert foreground "RGBA" else Ok foreground);
        canvas ← Image_alpha_composite canvas foreground;
        match pending with
        | Some e => Raise e
        | None => Ok (canvas, Some foreground)
        end
  end.

(** Body of [for layer, image in zip(layers, images)], lines 484-497. *)
Definition blend_step (self : Neopet) (pose : PetPose) (st : blend_state)
    (li : AppearanceLayer * list Byte.byte) : result blend_state :=
  let '(canvas, foreground) := st in
  let '(layer, image) := li in
  match Image_open image with
  | Ok opened => finally_clause canvas (Some opened) None
  | Raise _ =>
      finally_clause canvas foreground
        (Some (BrokenAssetImage (Neopet_species self) (Neopet_color self) pose layer))
  end.

(** [render]: the value returned stands for the image saved to [fp]. *)
Definition render `{Http} (CLOSEST_POSES_IN_ORDER : gmap Z (list PetPose))
    (self : Neopet) (pose : option PetPose) : result Image :=
  let pose := pose_or pose (Neopet_pose self) in
  let img_size :=
    sizes (match Neopet_size self with Some size => size | None => SIZE_600 end) in
  let canvas := Image_new img_size in
  layers ← _render_layers CLOSEST_POSES_IN_ORDER self (Some pose);
  images ← gather (Layer_image_url <$> layers);
  st ← for_each (blend_step self pose) (canvas, None) (zip layers images);
  Ok st.1.
End blend.

(** ** Neopet.closet_url and Neopet.legacy_closet_url *)

(** The values stored in the [OrderedDict] of URL parameters. *)
Inductive param :=
| PStr (s : string)
| PInt (n : Z)
| PPose (p : PetPose)
| PInts (l : list Z).

Section urls.
(** [urllib.parse.urlencode(params, doseq=True)] and the base address of the
    HTTP client are outside the sources. *)
Variable urlencode : list (string * param) → string.
Variable BASE : string.
Variable CLOSEST_POSES_IN_ORDER : gmap Z (list PetPose).

(** [if self.name: params["name"] = self.name] *)
Definition name_param (self : Neopet) : list (string * param) :=
  match Neopet_name self with
  | Some name => if bool_decide (name = "") then [] else [("name", PStr name)]
  | None => []
  end.

(** The parameters of [closet_url], in the order of insertion (the keys are
    all different, so that no assignment replaces an earlier one). *)
Definition closet_params (self : Neopet) : result (list (string * param)) :=
  let params := name_param self in
  let params := params ++ [("species", PInt (Species_id (Neopet_species self)))] in
  let params := params ++ [("color", PInt (Color_id (Neopet_color self)))] in
  valid_poses ← valid_poses CLOSEST_POSES_IN_ORDER self None;
  let params :=
    match valid_poses with
    | pose :: _ => params ++ [("pose", PPose pose)]
    | [] => params
    end in
  let params :=
    match Neopet_items self with
    | _ :: _ => params ++ [("objects[]", PInts (Item_id <$> Neopet_items self))]
    | [] => params
    end in
  Ok params.

Definition closet_url (self : Neopet) : result string :=
  params ← closet_params self;
  Ok (BASE +:+ "/outfits/new?" +:+ urlencode params).

Definition legacy_closet_params (self : Neopet) : result (list (string * param)) :=
  let params := name_param self in
  let params := params ++ [("species", PInt (Species_id (Neopet_species self)))] in
  let params := params ++ [("color", PInt (Color_id (Neopet_color self)))] in
  valid_poses ← valid_poses CLOSEST_POSES_IN_ORDER self None;
  let params :=
    match valid_poses with
    | pose :: _ =>
        match get_pet_appearance self pose with
        | Some appearance => params ++ [("state", PStr (PetAppearance_id appearance))]
        | None => params
        end
    | [] => params
    end in
  let params :=
    match Neopet_items self with
    | _ :: _ =>
        params ++ [("objects[]", PInts (Item_id <$> Neopet_items self));
                   ("closet[]", PInts (Item_id <$> Neopet_items self))]
    | [] => params
    end in
  Ok params.

Definition legacy_closet_url (self : Neopet) : result string :=
  params ← legacy_closet_params self;
  Ok ("https://impress.openneo.net/wardrobe#" +:+ urlencode params).
End urls.

(** The parts of the parameter list of [closet_url] that depend on the valid
    poses and on the items. *)
Definition pose_part (valid : list PetPose) : list (string * param) :=
  match valid with
  | pose :: _ => [("pose", PPose pose)]
  | [] => []
  end.

Definition objects_part (items : list Item) : list (string * param) :=
  match items with
  | _ :: _ => [("objects[]", PInts (Item_id <$> items))]
  | [] => []
  end.

(** The parts of the parameter list of [legacy_closet_url] that depend on the
    valid poses and on the items. *)
Definition state_part (self : Neopet) (valid : list PetPose) : list (string * param) :=
  match valid with
  | pose :: _ =>
      match get_pet_appearance self pose with
      | Some appearance => [("state", PStr (PetAppearance_id appearance))]
      | None => []
      end
  | [] => []
  end.

Definition legacy_objects_part (items : list Item) : list (string * param) :=
  match items with
  | _ :: _ => [("objects[]", PInts (Item_id <$> items)); ("closet[]", PInts (Item_id <$> items))]
  | [] => []
  end.

(** A stand-in for [urlencode]: the keys, joined by an ampersand. *)
Definition toy_urlencode (params : list (string * param)) : string :=
  String.concat "&" (fst <$> params).

(** ** Outfit.image_urls *)

(** ['0' * n] *)
Fixpoint zeros (n : nat) : string :=
  match n with
  | O => ""
  | S n' => String (Ascii.ascii_of_nat 48) (zeros n')
  end.

(** Whether a character is a sign, [+] or [-]. *)
Definition is_sign (c : Ascii.ascii) : bool :=
  bool_decide (c = Ascii.ascii_of_nat 43) || bool_decide (c = Ascii.ascii_of_nat 45).

(** [s.zfill(width)]: zeros on the left, after the sign if there is one; a
    string that is wide enough is returned as it is. *)
Definition zfill (width : nat) (s : string) : string :=
  let fill := (width - String.length s)%nat in
  match s with
  | String c rest => if is_sign c then String c (zeros fill +:+ rest) else zeros fill +:+ s
  | EmptyString => zeros fill
  end.

(** [s[start:stop]] for bounds that are not negative, and [s[start:]]. *)
Definition slice (start stop : nat) (s : string) : string :=
  String.substring start (stop - start) s.

Definition slice_from (start : nat) (s : string) : string :=
  String.substring start (String.length s - start) s.

(** [id_folder], lines 529-530, from [str(self.id)]. *)
Definition id_folder (id : string) : string :=
  let new_id := zfill 9 id in
  slice 0 3 new_id +:+ "/" +:+ slice 3 6 new_id +:+ "/" +:+ slice_from 6 new_id.

(** The dict of [image_urls], in the order of its keys. *)
Definition image_urls (id : string) : list (string * string) :=
  let url :=
    "https://openneo-uploads.s3.amazonaws.com/outfits/" +:+ id_folder id +:+ "/" in
  [("large", url +:+ "preview.png");
   ("medium", url +:+ "medium_preview.png");
   ("small", url +:+ "small_preview.png")].

(** [Outfit.url], from [str(self.id)]. *)
Definition Outfit_url (id : string) : string :=
  "https://impress.openneo.net/outfits/" +:+ id.

(** ** Item.url *)

(** [s.replace(old, new)] for single characters. *)
Fixpoint replace_char (old new : Ascii.ascii) (s : string) : string :=
  match s with
  | EmptyString => EmptyString
  | String c rest =>
      String (if bool_decide (c = old) then new else c) (replace_char old new rest)
  end.

Definition space : Ascii.ascii := Ascii.ascii_of_nat 32.
Definition hyphen : Ascii.ascii := Ascii.ascii_of_nat 45.

(** [Item.url], from the id and the name of the item; the name is [None] when
    the payload has none, and then [self.name.replace] raises. *)
Definition Item_url (id : Z) (name : option string) : result string :=
  match name with
  | Some name =>
      Ok ("http://impress.openneo.net/items/" +:+ str_int id +:+ "-"
            +:+ replace_char space hyphen name)
  | None => Raise AttributeError
  end.


(** ** Species.colors and Color.species *)

(** The part of the client state that the two iterators read: the table of
    valid species/color pairs and the registries of colors and of species.
    [state.py] is outside the sources at hand; the decorator [_require_state]
    brings the state up to date before the body runs, so that the state here
    is the state the body sees. *)
Class State := {
  color_count : Z;
  species_count : Z;
  (** [_valid_pairs.check(species_id=..., color_id=...)] *)
  check_pair : Z → Z → bool;
  _colors : gmap Z Color;
  _species : gmap Z Species
}.

(** [range(1, n + 1)] *)
Definition range_from_1 (n : Z) : list Z := seqZ 1 n.

Section iterators.
Context `{State}.

Definition color_step (self : Species) (valid : bool) (found : list Color) (color_id : Z)
  : result (list Color) :=
  let is_valid := check_pair (Species_id self) color_id in
  if bool_decide (is_valid = valid) then
    match _colors !! color_id with
    | Some color => Ok (found ++ [color])
    | None => Raise KeyError
    end
  else Ok found.

Definition _color_iterator (self : Species) (valid : bool) : result (list Color) :=
  for_each (color_step self valid) [] (range_from_1 color_count).

Definition colors (self : Species) : result (list Color) := _color_iterator self true.

Definition missing_colors (self : Species) : result (list Color) :=
  _color_iterator self false.

Definition species_step (self : Color) (valid : bool) (found : list Species)
    (species_id : Z) : result (list Species) :=
  let is_valid := check_pair species_id (Color_id self) in
  if bool_decide (is_valid = valid) then
    match _species !! species_id with
    | Some species => Ok (found ++ [species])
    | None => Raise KeyError
    end
  else Ok found.

Definition _species_iterator (self : Color) (valid : bool) : result (list Species) :=
  for_each (species_step self valid) [] (range_from_1 species_count).

Definition species (self : Color) : result (list Species) := _species_iterator self true.

Definition missing_species (self : Color) : result (list Species) :=
  _species_iterator self false.
End iterators.

(** ** The searchers of [iterators.py] *)

(** How an awaited call ends: it returns, it raises, or it waits for ever
    (a [put] on a full queue that no other task empties). *)
Inductive search_exn :=
| StopAsyncIteration
| Error (e : exn).

Inductive outcome (A : Type) :=
| Returns (a : A)
| Raises (e : search_exn)
| Blocks.
Arguments Returns {A} a.
Arguments Raises {A} e.
Arguments Blocks {A}.

(** The attributes of a searcher: the queue [_items] with its [maxsize]
    ([per_page or 0] at construction), the flag [_exhausted], and the
    [offset] and [per_page] of the paginated searchers. *)
Record DTISearch := {
  _items : list (option Item);
  maxsize : Z;
  _exhausted : bool;
  offset : Z;
  per_page : Z
}.

Definition set_items (q : list (option Item)) (self : DTISearch) : DTISearch :=
  {| _items := q; maxsize := maxsize self; _exhausted := _exhausted self;
     offset := offset self; per_page := per_page self |}.

(** [Queue.full()]: a queue whose [maxsize] is not positive is never full. *)
Definition queue_full (self : DTISearch) : bool :=
  bool_decide (0 < maxsize self ∧ maxsize self ≤ Z.of_nat (length (_items self))).

(** [await self._items.put(x)] *)
Definition put (x : option Item) (self : DTISearch) : DTISearch * outcome () :=
  if queue_full self then (self, Blocks)
  else (set_items (_items self ++ [x]) self, Returns ()).

(** [DTISearch.post_fetch] and [PaginatedDTISearch.post_fetch]. *)
Definition post_fetch_single {Payload : Type} (self : DTISearch) (items : list Payload)
  : DTISearch :=
  {| _items := _items self; maxsize := maxsize self; _exhausted := true;
     offset := offset self; per_page := per_page self |}.

Definition post_fetch_paginated {Payload : Type} (self : DTISearch) (items : list Payload)
  : DTISearch :=
  {| _items := _items self; maxsize := maxsize self;
     _exhausted := bool_decide (Z.of_nat (length items) < per_page self);
     offset := offset self + per_page self; per_page := per_page self |}.

Section search.
(** The payloads that the data service returns ([ItemPayload], or [None] for
    an item that was not found), with their truth value. *)
Variable Payload : Type.
Variable payload_truthy : Payload → bool.

(** The keyword arguments of a call of [Item]. *)
Inductive kwarg :=
| Kw_payload (p : Payload)
| Kw_state.

(** [Item.__init__(self, **data)] of [models.py] starts with
    [self.id = int(data["id"])]: it raises [KeyError] when no keyword is
    called [id].  What the constructor does after that lookup is left open. *)
Variable Item_rest : gmap string kwarg → kwarg → result Item.

Definition Item_new (data : gmap string kwarg) : result Item :=
  match data !! "id" with
  | Some id => Item_rest data id
  | None => Raise KeyError
  end.

(** The methods that the subclasses override. *)
Variable fetch_items : DTISearch → result (list Payload).
Variable post_fetch : DTISearch → list Payload → DTISearch.

(** The loop of [_fill_items], lines 40-44:
    [Item(data=item, state=self._state)] for a payload that is truthy,
    [None] otherwise. *)
Fixpoint fill_loop (self : DTISearch) (items : list Payload) : DTISearch * outcome () :=
  match items with
  | [] => (self, Returns ())
  | item :: rest =>
      if payload_truthy item then
        match Item_new {[ "data" := Kw_payload item; "state" := Kw_state ]} with
        | Ok made =>
            match put (Some made) self with
            | (self', Returns _) => fill_loop self' rest
            | stopped => stopped
            end
        | Raise e => (self, Raises (Error e))
        end
      else
        match put None self with
        | (self', Returns _) => fill_loop self' rest
        | stopped => stopped
        end
  end.

Definition _fill_items (self : DTISearch) : DTISearch * outcome () :=
  match fetch_items self with
  | Ok items =>
      match fill_loop self items with
      | (self', Returns _) => (post_fetch self' items, Returns ())
      | stopped => stopped
      end
  | Raise e => (self, Raises (Error e))
  end.

(** [next]: [get_nowait] on an empty queue raises [QueueEmpty], which is
    turned into [StopAsyncIteration]. *)
Definition next (self : DTISearch) : DTISearch * outcome (option Item) :=
  let filled :=
    if bool_decide (_items self = []) && negb (_exhausted self)
    then _fill_items self else (self, Returns ()) in
  match filled with
  | (self', Returns _) =>
      match _items self' with
      | x :: q => (set_items q self', Returns x)
      | [] => (self', Raises StopAsyncIteration)
      end
  | (self', Raises e) => (self', Raises e)
  | (self', Blocks) => (self', Blocks)
  end.

(** [flatten]: the [while True] loop, with a bound on the number of rounds;
    [None] when the bound is reached. *)
Fixpoint flatten_loop (rounds : nat) (self : DTISearch) (ret : list Item)
  : option (DTISearch * outcome (list Item)) :=
  match rounds with
  | O => None
  | S rounds' =>
      match next self with
      | (self', Returns (Some item)) => flatten_loop rounds' self' (ret ++ [item])
      | (self', Returns None) => Some (self', Returns ret)
      | (self', Raises StopAsyncIteration) => Some (self', Returns ret)
      | (self', Raises e) => Some (self', Raises e)
      | (self', Blocks) => Some (self', Blocks)
      end
  end.

Definition flatten (rounds : nat) (self : DTISearch)
  : option (DTISearch * outcome (list Item)) :=
  flatten_loop rounds self [].
End search.

Arguments Kw_payload {Payload} p.
Arguments Kw_state {Payload}.
Arguments Item_new {Payload} Item_rest data.
Arguments fill_loop {Payload} payload_truthy Item_rest self items.
Arguments _fill_items {Payload} payload_truthy Item_rest fetch_items post_fetch self.
Arguments next {Payload} payload_truthy Item_rest fetch_items post_fetch self.
Arguments flatten_loop {Payload} payload_truthy Item_rest fetch_items post_fetch
  rounds self ret.
Arguments flatten {Payload} payload_truthy Item_rest fetch_items post_fetch rounds self.

(** ** The reference algorithm of the conflict resolver

    Written after the specification's words (section 4.2): an accumulator of
    retained items, initially empty; each incoming item [i] is checked against
    every retained item [t], evicts those with [conflict(i, t)], and is then
    appended unconditionally.  Self-comparison is excluded: an incoming item
    never evicts a retained item that carries its own id. *)

Definition occupied (i : Item) : gset Z :=
  match Item_appearance i with
  | Some a => zone_set (occupies a)
  | None => ∅
  end.

Definition restricted (i : Item) : gset Z :=
  match Item_appearance i with
  | Some a => zone_set (ItemAppearance_restricted_zones a)
  | None => ∅
  end.

Definition spec_conflict (i t : Item) : bool :=
  bool_decide (occupied i ∩ (occupied t ∪ restricted t) ≠ ∅)
  || bool_decide (occupied t ∩ (occupied i ∪ restricted i) ≠ ∅).

(** [keeps i t]: the retained item [t] stays when [i] comes in, either
    because it is [i] itself or because the two do not conflict. *)
Definition keeps (i t : Item) : Prop :=
  Item_id i = Item_id t ∨ ¬ spec_conflict i t.

#[global] Instance keeps_dec i t : Decision (keeps i t).
Proof. unfold keeps. apply _. Defined.

Definition spec_insert (acc : list Item) (i : Item) : list Item :=
  filter (keeps i) acc ++ [i].

Definition spec_resolve (items : list Item) : list Item :=
  fold_left spec_insert items [].

(** An auxiliary pass for the proofs, not the pass of the specification:
    every retained item is compared, a copy of the incoming item included.
    It has simpler membership lemmas, and it is the reference pass on lists of
    pairwise distinct ids ([spec_plain_resolve]). *)
Definition plain_insert (acc : list Item) (i : Item) : list Item :=
  filter (λ t, ¬ spec_conflict i t) acc ++ [i].

Definition plain_resolve (items : list Item) : list Item :=
  fold_left plain_insert items [].

(** ** Vocabulary for the statements *)

Definition has_appearance (i : Item) : Prop := is_Some (Item_appearance i).

(** Items of a list are identified by their ids: two members with the same id
    are the same item. *)
Definition consistent (l : list Item) : Prop :=
  ∀ a b, a ∈ l → b ∈ l → Item_id a = Item_id b → a = b.

Definition count_id (i : Z) (l : list Item) : nat :=
  length (filter (λ x, Item_id x = i) l).

(** [checked i t]: the comparison of [i] against [t] could be made and found
    no conflict. *)
Definition checked (i t : Item) : Prop :=
  has_appearance i ∧ has_appearance t ∧ spec_conflict i t = false.

(** [compatible t u]: two items of different ids were compared without
    conflict ([u] being the later one). *)
Definition compatible (t u : Item) : Prop :=
  Item_id t ≠ Item_id u → checked u t.

(** Sample data. *)
Definition mkZone (i d : Z) : Zone :=
  {| Zone_id := i; Zone_depth := d; Zone_label := "" |}.
Definition mkLayer (z : Zone) : AppearanceLayer :=
  {| Layer_id := ""; Layer_zone := z; Layer_image_url := "";
     Layer_asset_type := "object"; Layer_asset_remote_id := "" |}.
Definition mkItem (i : Z) (occ restr : list Zone) : Item :=
  {| Item_id := i; Item_name := "";
     Item_appearance := Some {| ItemAppearance_id := "";
                                ItemAppearance_layers := mkLayer <$> occ;
                                ItemAppearance_restricted_zones := restr |} |}.

Definition Z1 : Zone := mkZone 1 10.
Definition Z2 : Zone := mkZone 2 20.

(** Three items that all occupy zone 1. *)
Definition hatA : Item := mkItem 1 [Z1] [].
Definition hatB : Item := mkItem 2 [Z1] [].
Definition hatC : Item := mkItem 3 [Z1] [].

(** Two records that carry the same id but not the same appearance. *)
Definition wigEmpty : Item := mkItem 1 [] [].
Definition wigFull : Item := mkItem 1 [Z1] [].

(** An item that occupies zone 2 only. *)
Definition shoe : Item := mkItem 4 [Z2] [].

(** ** Vocabulary for the layer ordering *)

Definition item_layers (i : Item) : list AppearanceLayer :=
  match Item_appearance i with
  | Some a => ItemAppearance_layers a
  | None => []
  end.

Definition item_restricted_zones (i : Item) : list Zone :=
  match Item_appearance i with
  | Some a => ItemAppearance_restricted_zones a
  | None => []
  end.

(** The layers of the pet appearance followed by those of each item. *)
Definition concat_layers (a : PetAppearance) (items : list Item) : list AppearanceLayer :=
  PetAppearance_layers a ++ (items ≫= item_layers).

(** The restricted zones of the pet appearance and of all the items. *)
Definition all_restricted (a : PetAppearance) (items : list Item) : gset Z :=
  zone_set (PetAppearance_restricted_zones a) ∪ ⋃ (restricted <$> items).

Definition visible (a : PetAppearance) (items : list Item) (layer : AppearanceLayer) : Prop :=
  Zone_id (Layer_zone layer) ∉ all_restricted a items.

Definition depth_of (layer : AppearanceLayer) : Z := Zone_depth (Layer_zone layer).

Definition depth_le : AppearanceLayer → AppearanceLayer → Prop := key_le depth_of.

(** Sample data for the layer ordering: a body with a layer on zone 3 and one
    on zone 2, and a mask that occupies zone 4 and restricts zone 2. *)
Definition Z3 : Zone := mkZone 3 5.
Definition Z4 : Zone := mkZone 4 10.

Definition mkLayerAt (z : Zone) (url : string) : AppearanceLayer :=
  {| Layer_id := ""; Layer_zone := z; Layer_image_url := url;
     Layer_asset_type := "biology"; Layer_asset_remote_id := "" |}.

Definition acara : Species := {| Species_id := 1; Species_name := "Acara" |}.
Definition blue : Color := {| Color_id := 8; Color_name := "Blue" |}.

Definition body (pose : PetPose) (layers : list AppearanceLayer) : PetAppearance :=
  {| PetAppearance_id := ""; PetAppearance_body_id := "";
     PetAppearance_species := acara; PetAppearance_color := blue;
     PetAppearance_pose := pose; PetAppearance_layers := layers;
     PetAppearance_restricted_zones := [] |}.

Definition plain_body : PetAppearance :=
  body 1 [mkLayerAt Z2 "body.png"; mkLayerAt Z3 "shadow.png"].

Definition mask : Item := mkItem 5 [Z4] [Z2].

(** A sample fallback table over four poses (bits 1, 2, 8 and 16), and pets. *)
Definition sample_table : gmap Z (list PetPose) :=
  list_to_map [(1, [1; 2; 8; 16]); (2, [2; 1; 16; 8]); (8, [8; 16; 1; 2]); (16, [16; 8; 2; 1])].

Definition sample_pet (pose : PetPose) (mask : Z) (appearances : list PetAppearance)
    (items : list Item) : Neopet :=
  {| Neopet_species := acara; Neopet_color := blue;
     Neopet_appearances := appearances; Neopet_items := items;
     Neopet_name := None; Neopet_size := None;
     Neopet_pose := pose; _valid_poses := mask |}.

(** A toy imaging library: an image is its mode and the bytes painted on it.
    Empty data is no image; data that starts with the character 1 opens as a
    1-bit image, data that starts with P as a palette image, anything else as
    RGBA. *)
#[local] Instance toy_imaging : Imaging := {|
  Image := string * list Byte.byte;
  Image_new := λ _, ("RGBA", []);
  Image_open := λ data,
    match data with
    | [] => Raise (OtherError "UnidentifiedImageError")
    | Byte.x31 :: _ => Ok ("1", data)
    | Byte.x50 :: _ => Ok ("P", data)
    | _ => Ok ("RGBA", data)
    end;
  Image_mode := fst;
  Image_convert := λ image mode, Ok (mode, image.2);
  Image_alpha_composite := λ canvas foreground, Ok ("RGBA", canvas.2 ++ foreground.2)
|}.

Definition toy_image (mode : string) (data : list Byte.byte) : @Image toy_imaging :=
  (mode, data).

(** A toy HTTP client: the data behind a URL is the text of the URL. *)
#[local] Instance toy_http : Http := {|
  get_binary_data := λ url, Ok (String.list_byte_of_string url)
|}.

(** A pet whose body has a 1-bit layer followed by a layer with no image
    data, and a pet whose first layer has no image data. *)
Definition corrupt_after_mask : Neopet :=
  sample_pet 1 1 [body 1 [mkLayerAt Z3 "1bit.png"; mkLayerAt Z2 ""]] [].

Definition corrupt_first : Neopet :=
  sample_pet 1 1 [body 1 [mkLayerAt Z3 ""; mkLayerAt Z2 "body.png"]] [].

(** A pet that wears a hat on zone 1, then a mask on zone 1 that restricts
    zone 2, then a shoe on zone 2. *)
Definition mask_on_hat : Item := mkItem 6 [Z1] [Z2].

Definition dressed_pet : Neopet :=
  sample_pet 1 1 [body 1 [mkLayerAt Z3 "shadow.png"]] [hatA; mask_on_hat; shoe].

(** A toy state: two species and two colors; species 1 comes in color 1,
    species 2 in color 2.  In [sparse_state] the table of pairs has a third
    color, valid for species 1, that the registry does not know. *)
Definition kau : Species := {| Species_id := 2; Species_name := "Kau" |}.
Definition red : Color := {| Color_id := 1; Color_name := "Red" |}.
Definition green : Color := {| Color_id := 2; Color_name := "Green" |}.

Definition toy_state : State := {|
  color_count := 2;
  species_count := 2;
  check_pair := λ species_id color_id,
    bool_decide ((species_id = 1 ∧ color_id ≠ 2) ∨ (species_id = 2 ∧ color_id = 2));
  _colors := list_to_map [(1, red); (2, green)];
  _species := list_to_map [(1, acara); (2, kau)]
|}.

Definition sparse_state : State := {|
  color_count := 3;
  species_count := 2;
  check_pair := @check_pair toy_state;
  _colors := @_colors toy_state;
  _species := @_species toy_state
|}.

(** ** Tactics for closed goals *)

(** Decides a closed decidable proposition by evaluation. *)
Ltac by_evaluation := apply (bool_decide_unpack _); vm_compute; exact I.

(** Splits a membership [H : x ∈ [a; b; ...]] into one goal per member. *)
Ltac all_members H :=
  repeat (apply elem_of_cons in H as [->|H]); [..|by apply elem_of_nil in H].

(** Further sample items: a record without appearance data, and an item with
    appearance data that has neither layers nor restricted zones. *)
Definition bare : Item :=
  {| Item_id := 7; Item_name := ""; Item_appearance := None |}.

Definition charm : Item := mkItem 8 [] [].

(** ** Vocabulary for the compositing loop *)

(** What one round of the loop does to the canvas when the image has opened:
    a 1-bit image is left out, any other is converted to RGBA if need be and
    composited onto the canvas. *)
Definition paint `{Imaging} (canvas : Image) (foreground : Image) : result Image :=
  if bool_decide (Image_mode foreground = "1") then Ok canvas
  else
    foreground ←
      (if bool_decide (Image_mode foreground ≠ "RGBA")
       then Image_convert foreground "RGBA" else Ok foreground);
    Image_alpha_composite canvas foreground.

(** The side of the canvas that [render] allocates. *)
Definition canvas_size (self : Neopet) : Z :=
  sizes (match Neopet_size self with Some size => size | None => SIZE_600 end).

(** A toy HTTP client that cannot reach the empty URL. *)
Definition flaky_http : Http := {|
  get_binary_data := λ url,
    if bool_decide (url = "") then Raise (OtherError "ClientError")
    else Ok (String.list_byte_of_string url)
|}.

(** A pet with three body layers: a palette image, a 1-bit image and an RGBA
    image. *)
Definition layered_pet : Neopet :=
  sample_pet 1 1
    [body 1 [mkLayerAt Z3 "Pal"; mkLayerAt Z4 "1bit"; mkLayerAt Z2 "rgba"]] [].

(** The common shape of the two loops: walk the ids, and for each selected id
    append what the registry holds for it. *)
Definition select_step {A : Type} (selected : Z → bool) (registry : gmap Z A)
    (found : list A) (id : Z) : result (list A) :=
  if selected id then
    match registry !! id with
    | Some x => Ok (found ++ [x])
    | None => Raise KeyError
    end
  else Ok found.


(** [only_None self]: the queue of the searcher holds no item, only [None]
    entries. *)
Definition only_None (self : DTISearch) : Prop :=
  Forall (λ x, x = None) (_items self).

(** A toy searcher: the payload of an item that was found is its id, the
    service answers with one entry that was not found and one that was. *)
Definition fresh_search (size : Z) : DTISearch :=
  {| _items := []; maxsize := size; _exhausted := false; offset := 0; per_page := size |}.

Definition toy_truthy (p : option Z) : bool := bool_decide (is_Some p).

Definition toy_Item_rest (data : gmap string (kwarg (option Z))) (id : kwarg (option Z))
  : result Item :=
  Ok hatA.

Definition toy_fetch (self : DTISearch) : result (list (option Z)) :=
  Ok [None; Some 38913].

Definition toy_fetch_not_found (self : DTISearch) : result (list (option Z)) :=
  Ok [None; None].


(** * Properties *)

(** ** Conflicts *)

Lemma conflict_spec_conflict i t ia ta :
  Item_appearance i = Some ia → Item_appearance t = Some ta →
  conflict ia ta = spec_conflict i t.
Proof.
  intros Hi Ht. unfold conflict, spec_conflict, occupied, restricted, truthy, zone_set.
  rewrite Hi, Ht, !fmap_app, !list_to_set_app_L. reflexivity.
Qed.

Lemma spec_conflict_sym i t : spec_conflict i t = spec_conflict t i.
Proof. unfold spec_conflict. apply orb_comm. Qed.

Lemma spec_conflict_no_appearance_l i t :
  Item_appearance i = None → spec_conflict i t = false.
Proof.
  intros Hi. unfold spec_conflict, occupied, restricted. rewrite Hi.
  apply orb_false_iff. split; apply bool_decide_eq_false; intros H; apply H; set_solver.
Qed.

Lemma spec_conflict_overlap i t :
  occupied i ∩ occupied t ≠ ∅ → spec_conflict i t = true.
Proof.
  intros H. unfold spec_conflict. apply orb_true_iff. left.
  apply bool_decide_eq_true. set_solver.
Qed.

(** ** Lists: removal, counting by id, ordered pairs *)

Lemma Item_eqb_true a b : Item_eqb a b = true ↔ Item_id a = Item_id b.
Proof. unfold Item_eqb. apply bool_decide_eq_true. Qed.

Lemma Item_eqb_false a b : Item_eqb a b = false ↔ Item_id a ≠ Item_id b.
Proof. unfold Item_eqb. apply bool_decide_eq_false. Qed.

Lemma Item_in_true x l : Item_in x l = true ↔ ∃ y, y ∈ l ∧ Item_id x = Item_id y.
Proof.
  unfold Item_in. rewrite existsb_exists. split.
  - intros (y & Hy & He). exists y. split; [by apply list_elem_of_In | by apply Item_eqb_true].
  - intros (y & Hy & He). exists y. split; [by apply list_elem_of_In | by apply Item_eqb_true].
Qed.

(** [l.remove(x)] takes out one member that carries the id of [x]. *)
Lemma list_remove_split x l :
  Item_in x l = true →
  ∃ l1 y l2, l = l1 ++ y :: l2 ∧ Item_id y = Item_id x ∧ list_remove x l = l1 ++ l2.
Proof.
  induction l as [|y l IH]; simpl; [discriminate|].
  intros Hin. destruct (Item_eqb y x) eqn:Hyx.
  - exists [], y, l. by rewrite Item_eqb_true in Hyx.
  - assert (Item_eqb x y = false) as Hxy.
    { apply Item_eqb_false. apply Item_eqb_false in Hyx. congruence. }
    rewrite Hxy in Hin. simpl in Hin.
    destruct (IH Hin) as (l1 & z & l2 & -> & Hz & ->).
    by exists (y :: l1), z, l2.
Qed.

Lemma list_remove_absent x l : Item_in x l = false → list_remove x l = l.
Proof.
  induction l as [|y l IH]; simpl; [done|].
  intros [Hxy Hin]%orb_false_iff.
  assert (Item_eqb y x = false) as ->.
  { apply Item_eqb_false. apply Item_eqb_false in Hxy. congruence. }
  by rewrite IH.
Qed.

Lemma list_remove_sublist x l : list_remove x l `sublist_of` l.
Proof.
  induction l as [|y l IH]; simpl; [done|].
  destruct (Item_eqb y x); [by apply sublist_cons | by apply sublist_skip].
Qed.

Lemma sublist_filter_mono (P : Item → Prop) `{!∀ x, Decision (P x)} (l1 l2 : list Item) :
  l1 `sublist_of` l2 → filter P l1 `sublist_of` filter P l2.
Proof.
  induction 1 as [|x l1 l2 _ IH|x l1 l2 _ IH]; [done| |].
  - rewrite !filter_cons. destruct (decide (P x)); [by apply sublist_skip | done].
  - rewrite filter_cons. destruct (decide (P x)); [by apply sublist_cons | done].
Qed.

Lemma count_id_sublist i (l1 l2 : list Item) :
  l1 `sublist_of` l2 → (count_id i l1 ≤ count_id i l2)%nat.
Proof. intros H. apply sublist_length. by apply sublist_filter_mono. Qed.

Lemma count_id_app i l1 l2 : count_id i (l1 ++ l2) = (count_id i l1 + count_id i l2)%nat.
Proof. unfold count_id. by rewrite filter_app, length_app. Qed.

Lemma count_id_cons i x l :
  count_id i (x :: l) = ((if decide (Item_id x = i) then 1 else 0) + count_id i l)%nat.
Proof. unfold count_id. rewrite filter_cons. by destruct (decide (Item_id x = i)). Qed.

Lemma count_id_pos x (l : list Item) : x ∈ l → (0 < count_id (Item_id x) l)%nat.
Proof.
  intros (l1 & l2 & ->)%list_elem_of_split.
  rewrite count_id_app, count_id_cons, decide_True by done. lia.
Qed.

Lemma consistent_sublist (l1 l2 : list Item) :
  l1 `sublist_of` l2 → consistent l2 → consistent l1.
Proof. intros Hs Hc a b Ha Hb. apply Hc; eauto using elem_of_sublist. Qed.

Lemma NoDup_ids_consistent (l : list Item) : NoDup (Item_id <$> l) → consistent l.
Proof.
  induction l as [|x l IH]; intros Hnd a b Ha Hb Hab.
  - by apply elem_of_nil in Ha.
  - rewrite fmap_cons in Hnd. apply NoDup_cons in Hnd as [Hx Hnd].
    apply elem_of_cons in Ha as [->|Ha]; apply elem_of_cons in Hb as [->|Hb].
    + done.
    + exfalso. apply Hx. rewrite Hab. by apply list_elem_of_fmap_2.
    + exfalso. apply Hx. rewrite <- Hab. by apply list_elem_of_fmap_2.
    + by apply IH.
Qed.

Lemma ForallOrdPairs_snoc (R : Item → Item → Prop) l x :
  ForallOrdPairs R l → Forall (λ t, R t x) l → ForallOrdPairs R (l ++ [x]).
Proof.
  induction 1 as [|a l Ha Hl IH]; intros Hx; simpl.
  - constructor; constructor.
  - apply Forall_cons in Hx as [Hax Hx]. constructor; [|by apply IH].
    apply Forall_app. split; [done | by constructor].
Qed.

Lemma ForallOrdPairs_filter (R : Item → Item → Prop) (P : Item → Prop)
    `{!∀ x, Decision (P x)} l :
  ForallOrdPairs R l → ForallOrdPairs R (filter P l).
Proof.
  induction 1 as [|a l Ha Hl IH]; [constructor|].
  rewrite filter_cons. destruct (decide (P a)); [|done].
  constructor; [|done].
  apply Forall_forall. intros y [_ Hy]%list_elem_of_filter.
  rewrite Forall_forall in Ha. by apply Ha.
Qed.

Lemma ForallOrdPairs_app_cons (R : Item → Item → Prop) l1 x l2 :
  ForallOrdPairs R (l1 ++ x :: l2) → Forall (λ t, R t x) l1.
Proof.
  induction l1 as [|a l1 IH]; simpl; [constructor|].
  inversion 1 as [|? ? Ha Hl]; subst. constructor; [|by apply IH].
  rewrite Forall_forall in Ha. apply Ha. apply elem_of_app. right. by left.
Qed.

Lemma ForallOrdPairs_elem_of (R : Item → Item → Prop) l x y :
  ForallOrdPairs R l → x ∈ l → y ∈ l → x = y ∨ R x y ∨ R y x.
Proof. intros H Hx%list_elem_of_In Hy%list_elem_of_In. by apply (ForallOrdPairs_In H). Qed.

Lemma filter_all (P : Item → Prop) `{!∀ x, Decision (P x)} (l : list Item) :
  (∀ x, x ∈ l → P x) → filter P l = l.
Proof.
  induction l as [|x l IH]; intros Hall; [done|].
  rewrite filter_cons_True by (apply Hall; by left).
  f_equal. apply IH. intros y Hy. apply Hall. by right.
Qed.

(** ** The inner loop of [_render_items] *)

Lemma appearance_of_Ok i a : appearance_of i = Ok a ↔ Item_appearance i = Some a.
Proof. unfold appearance_of. destruct (Item_appearance i); split; congruence. Qed.

Lemma scan_step_cases item acc temp acc' :
  scan_step item acc temp = Ok acc' →
  (Item_id item = Item_id temp ∧ acc' = acc)
  ∨ (Item_id item ≠ Item_id temp ∧ Item_in temp acc = false ∧ acc' = acc)
  ∨ (Item_id item ≠ Item_id temp ∧ Item_in temp acc = true
     ∧ has_appearance item ∧ has_appearance temp
     ∧ acc' = if spec_conflict item temp then list_remove temp acc else acc).
Proof.
  unfold scan_step. destruct (Item_eqb item temp) eqn:He.
  { apply Item_eqb_true in He. intros [= ->]. by left. }
  apply Item_eqb_false in He. destruct (Item_in temp acc) eqn:Hin; simpl.
  2:{ intros [= ->]. right. by left. }
  destruct (appearance_of item) as [ia|] eqn:Hia; simpl; [|discriminate].
  destruct (appearance_of temp) as [ta|] eqn:Hta; simpl; [|discriminate].
  apply appearance_of_Ok in Hia, Hta.
  rewrite (conflict_spec_conflict item temp ia ta Hia Hta).
  intros H. right. right. repeat split; try done.
  - by exists ia.
  - by exists ta.
  - destruct (spec_conflict item temp); congruence.
Qed.

(** One run of the inner loop for [item], when it does not raise, takes out of
    the retained items exactly those of another id that conflict with [item];
    every retained item of another id has been compared with [item]. *)
Lemma scan_ok (L : list Item) (item : Item) :
  consistent L →
  ∀ temps acc acc',
    temps ⊆ L → acc ⊆ L →
    (∀ t, t ∈ acc → Item_id t ≠ Item_id item →
       checked item t ∨ (count_id (Item_id t) acc ≤ count_id (Item_id t) temps)%nat) →
    for_each (scan_step item) acc temps = Ok acc' →
    acc' = filter (keeps item) acc
    ∧ ∀ t, t ∈ acc → Item_id t ≠ Item_id item → has_appearance item ∧ has_appearance t.
Proof.
  intros Hcons. induction temps as [|temp ts IH]; intros acc acc' Hts Hacc Hcnt Hrun.
  - simpl in Hrun. injection Hrun as <-.
    assert (∀ t, t ∈ acc → Item_id t ≠ Item_id item → checked item t) as Hchk.
    { intros t Ht Hne. destruct (Hcnt t Ht Hne) as [|Hle]; [done|].
      pose proof (count_id_pos t acc Ht). unfold count_id in Hle at 2.
      rewrite filter_nil in Hle. simpl in Hle. lia. }
    split.
    + symmetry. apply filter_all. intros t Ht.
      destruct (decide (Item_id item = Item_id t)) as [|Hne]; [by left|].
      right. destruct (Hchk t Ht) as (_ & _ & Hf); [congruence|].
      rewrite Hf. intros [].
    + intros t Ht Hne. destruct (Hchk t Ht Hne) as (? & ? & _). done.
  - simpl in Hrun.
    destruct (scan_step item acc temp) as [acc1|] eqn:Hstep; simpl in Hrun; [|discriminate].
    assert (temp ∈ L) as HtempL by (apply Hts; by left).
    assert (ts ⊆ L) as HtsL by (intros x Hx; apply Hts; by right).
    apply scan_step_cases in Hstep
      as [[He ->]|[(Hne & Hin & ->)|(Hne & Hin & Hai & Hat & ->)]].
    + apply (IH acc acc'); try done.
      intros t Ht Hnt. destruct (Hcnt t Ht Hnt) as [|Hle]; [by left|right].
      rewrite count_id_cons, decide_False in Hle by congruence. done.
    + apply (IH acc acc'); try done.
      intros t Ht Hnt. destruct (Hcnt t Ht Hnt) as [|Hle]; [by left|right].
      rewrite count_id_cons, decide_False in Hle; [done|].
      intros Heq. assert (Item_in temp acc = true) as Hin'; [|congruence].
      apply Item_in_true. by exists t.
    + destruct (spec_conflict item temp) eqn:Hc.
      * destruct (list_remove_split temp acc Hin) as (l1 & y & l2 & -> & Hy & Hrem).
        rewrite Hrem in Hrun. clear Hrem.
        assert (y = temp) as ->.
        { apply Hcons; try done. apply Hacc. apply elem_of_app. right. by left. }
        assert (l1 ++ l2 ⊆ L) as Hsub.
        { intros x Hx. apply Hacc. apply elem_of_app in Hx as [?|?];
            apply elem_of_app; [by left | right; by right]. }
        destruct (IH (l1 ++ l2) acc' HtsL Hsub) as [-> Happ]; [|done|].
        { intros t Ht Hnt.
          assert (t ∈ l1 ++ temp :: l2) as Ht'.
          { apply elem_of_app in Ht as [?|?]; apply elem_of_app; [by left | right; by right]. }
          destruct (Hcnt t Ht' Hnt) as [|Hle]; [by left|right].
          rewrite count_id_app, !count_id_cons in Hle. rewrite count_id_app. lia. }
        split.
        -- rewrite !filter_app, filter_cons_False; [done|].
           intros [?|Hk]; [done|]. apply Hk. by rewrite Hc.
        -- intros t Ht Hnt. apply elem_of_app in Ht as [Ht|Ht]. 
           ++ apply Happ; [|done]. apply elem_of_app. by left.
           ++ apply elem_of_cons in Ht as [->|Ht]; [done|].
              apply Happ; [|done]. apply elem_of_app. by right.
      * apply (IH acc acc'); try done.
        intros t Ht Hnt.
        destruct (decide (Item_id temp = Item_id t)) as [Heq|Hneq].
        -- left. assert (t = temp) as -> by (apply Hcons; auto). done.
        -- destruct (Hcnt t Ht Hnt) as [|Hle]; [by left|right].
           rewrite count_id_cons, decide_False in Hle by done. done.
Qed.

Lemma scan_total (item : Item) (temps acc : list Item) :
  has_appearance item → (∀ t, t ∈ temps → has_appearance t) →
  ∃ acc', for_each (scan_step item) acc temps = Ok acc'.
Proof.
  intros [ia Hia] Hall. revert acc.
  induction temps as [|temp ts IH]; intros acc; simpl; [by eexists|].
  assert (∃ acc1, scan_step item acc temp = Ok acc1) as [acc1 ->].
  { unfold scan_step. destruct (Item_eqb item temp); [by eexists|].
    destruct (negb (Item_in temp acc)); [by eexists|].
    destruct (Hall temp) as [ta Hta]; [by left|].
    unfold appearance_of. rewrite Hia, Hta. simpl.
    destruct (conflict ia ta); by eexists. }
  simpl. apply IH. intros t Ht. apply Hall. by right.
Qed.

(** A run of the inner loop over retained items that were all compared without
    conflict changes nothing. *)
Lemma scan_stable (item : Item) (temps acc : list Item) :
  (∀ temp, temp ∈ temps → Item_id item ≠ Item_id temp → Item_in temp acc = true →
     checked item temp) →
  for_each (scan_step item) acc temps = Ok acc.
Proof.
  induction temps as [|temp ts IH]; intros Hall; simpl; [done|].
  assert (scan_step item acc temp = Ok acc) as ->.
  { unfold scan_step. destruct (Item_eqb item temp) eqn:He; [done|].
    apply Item_eqb_false in He.
    destruct (Item_in temp acc) eqn:Hin; simpl; [|done].
    destruct (Hall temp) as ([ia Hia] & [ta Hta] & Hc); [by left|done|done|].
    unfold appearance_of. rewrite Hia, Hta. simpl.
    by rewrite (conflict_spec_conflict item temp ia ta Hia Hta), Hc. }
  simpl. apply IH. intros t Ht. apply Hall. by right.
Qed.

(** ** The outer loop of [_render_items] *)

Lemma for_each_cons {A S : Type} (body : S → A → result S) s x l :
  for_each body s (x :: l) = body s x ≫= λ s', for_each body s' l.
Proof. reflexivity. Qed.

Lemma render_items_step_Ok items acc item acc2 :
  render_items_step items acc item = Ok acc2 ↔
  ∃ acc1, for_each (scan_step item) acc items = Ok acc1 ∧ acc2 = acc1 ++ [item].
Proof.
  unfold render_items_step.
  destruct (for_each (scan_step item) acc items) as [acc1|]; simpl; split.
  - intros [= <-]. by exists acc1.
  - by intros (? & [= <-] & ->).
  - discriminate.
  - by intros (? & ? & _).
Qed.

Lemma render_items_loop_ok (items : list Item) :
  consistent items →
  ∀ rest pre acc out,
    items = pre ++ rest → acc `sublist_of` pre → ForallOrdPairs compatible acc →
    for_each (render_items_step items) acc rest = Ok out →
    out = fold_left spec_insert rest acc
    ∧ ForallOrdPairs compatible out ∧ out `sublist_of` items.
Proof.
  intros Hcons. induction rest as [|item rest IH]; intros pre acc out Hitems Hsub Hfop Hrun.
  - simpl in Hrun. injection Hrun as <-. rewrite app_nil_r in Hitems. by subst.
  - rewrite for_each_cons in Hrun.
    destruct (render_items_step items acc item) as [acc2|] eqn:Hstep;
      simpl in Hrun; [|discriminate].
    apply render_items_step_Ok in Hstep as (acc1 & Hscan & ->).
    assert (acc `sublist_of` items) as Hsub'.
    { rewrite Hitems. by apply sublist_inserts_r. }
    destruct (scan_ok items item Hcons items acc acc1) as [-> Happ]; try done.
    { by apply sublist_subseteq. }
    { intros t _ _. right. by apply count_id_sublist. }
    simpl. apply (IH (pre ++ [item])).
    + by rewrite <- app_assoc.
    + apply sublist_app; [|done]. etrans; [apply sublist_filter|done].
    + apply ForallOrdPairs_snoc; [by apply ForallOrdPairs_filter|].
      apply Forall_forall. intros t [Hk Ht]%list_elem_of_filter Hne.
      destruct (Happ t Ht Hne) as [? ?]. repeat split; try done.
      destruct Hk as [?|Hk]; [congruence|].
      destruct (spec_conflict item t); [by destruct Hk|done].
    + done.
Qed.

Lemma render_items_resolve (items out : list Item) :
  consistent items → _render_items items = Ok out →
  out = spec_resolve items ∧ ForallOrdPairs compatible out ∧ out `sublist_of` items.
Proof.
  intros Hcons Hrun. apply (render_items_loop_ok items Hcons items [] [] out); try done.
  constructor.
Qed.

Lemma render_items_total (items : list Item) :
  (∀ i, i ∈ items → has_appearance i) → ∃ out, _render_items items = Ok out.
Proof.
  intros Hall. unfold _render_items.
  assert (∀ rest acc, rest ⊆ items →
            ∃ out, for_each (render_items_step items) acc rest = Ok out) as Hloop.
  { induction rest as [|item rest IH]; intros acc Hrest; [by eexists|].
    rewrite for_each_cons.
    destruct (scan_total item items acc) as [acc1 Hscan]; [|done|].
    { apply Hall, Hrest. by left. }
    rewrite (proj2 (render_items_step_Ok items acc item _)) by eauto.
    simpl. apply IH. intros x Hx. apply Hrest. by right. }
  by apply Hloop.
Qed.

(** Resolving again a list whose members were all compared without conflict
    gives the list back. *)
Lemma render_items_fixpoint (out : list Item) :
  consistent out → ForallOrdPairs compatible out → _render_items out = Ok out.
Proof.
  intros Hcons Hfop. unfold _render_items.
  assert (∀ rest pre, out = pre ++ rest →
            for_each (render_items_step out) pre rest = Ok out) as Hloop.
  { induction rest as [|item rest IH]; intros pre Hout.
    - simpl. by rewrite app_nil_r in Hout; subst.
    - rewrite for_each_cons.
      rewrite (proj2 (render_items_step_Ok out pre item (pre ++ [item]))).
      { simpl. apply IH. by rewrite <- app_assoc. }
      exists pre. split; [|done]. apply scan_stable.
      + intros temp Htemp Hne (y & Hy & Hid)%Item_in_true.
        assert (y = temp) as ->.
        { apply Hcons; [|done|done]. rewrite Hout. apply elem_of_app. by left. }
        rewrite Hout in Hfop. apply ForallOrdPairs_app_cons in Hfop.
        rewrite Forall_forall in Hfop. apply (Hfop temp Hy). congruence. }
  by apply Hloop.
Qed.

(** ** The reference pass and the auxiliary pass *)

Lemma filter_ext_elem (P Q : Item → Prop) `{!∀ x, Decision (P x)} `{!∀ x, Decision (Q x)}
    (l : list Item) :
  (∀ x, x ∈ l → P x ↔ Q x) → filter P l = filter Q l.
Proof.
  induction l as [|x l IH]; intros Hext; [done|].
  rewrite !filter_cons. rewrite IH by (intros y Hy; apply Hext; by right).
  destruct (decide (P x)) as [Hp|Hp], (decide (Q x)) as [Hq|Hq]; try done.
  - exfalso. apply Hq. apply Hext; [by left|done].
  - exfalso. apply Hp. apply Hext; [by left|done].
Qed.

Lemma elem_of_plain_insert acc i t :
  t ∈ plain_insert acc i ↔ (t ∈ acc ∧ spec_conflict i t = false) ∨ t = i.
Proof.
  unfold plain_insert. rewrite elem_of_app, list_elem_of_filter, list_elem_of_singleton.
  destruct (spec_conflict i t); simpl; naive_solver.
Qed.

Lemma spec_plain_fold (rest acc : list Item) :
  NoDup (Item_id <$> rest) →
  (∀ t i, t ∈ acc → i ∈ rest → Item_id i ≠ Item_id t) →
  fold_left spec_insert rest acc = fold_left plain_insert rest acc.
Proof.
  revert acc. induction rest as [|i rest IH]; intros acc Hnd Hfresh; [done|].
  rewrite fmap_cons in Hnd. apply NoDup_cons in Hnd as [Hi Hnd]. simpl.
  assert (spec_insert acc i = plain_insert acc i) as ->.
  { unfold spec_insert, plain_insert. f_equal. apply filter_ext_elem.
    intros t Ht. unfold keeps. split; [|by right].
    intros [Heq|?]; [|done]. exfalso. apply (Hfresh t i); [done|by left|done]. }
  apply IH; [done|].
  intros t j [[Ht _]| ->]%elem_of_plain_insert Hj.
  - apply Hfresh; [done | by right].
  - intros Heq. apply Hi. rewrite <- Heq. by apply list_elem_of_fmap_2.
Qed.

Lemma spec_plain_resolve (items : list Item) :
  NoDup (Item_id <$> items) → spec_resolve items = plain_resolve items.
Proof. intros Hnd. apply spec_plain_fold; [done|]. intros t i Ht. by apply elem_of_nil in Ht. Qed.

(** Membership in the result of the reference pass, for an item that is not
    among those still to come. *)
Lemma elem_of_plain_fold (rest acc : list Item) (t : Item) :
  t ∉ rest →
  t ∈ fold_left plain_insert rest acc ↔
  t ∈ acc ∧ ∀ c, c ∈ rest → spec_conflict c t = false.
Proof.
  revert acc. induction rest as [|c rest IH]; intros acc Ht; simpl.
  - split; [|by intros [? _]]. intros ?. split; [done|]. intros c Hc. by apply elem_of_nil in Hc.
  - apply not_elem_of_cons in Ht as [Hne Ht].
    rewrite IH, elem_of_plain_insert by done. split.
    + intros [[[? ?]|?] Hrest]; [|done]. split; [done|].
      intros c' [->|?]%elem_of_cons; auto.
    + intros [? Hall]. split.
      * left. split; [done|]. apply Hall. by left.
      * intros c' ?. apply Hall. by right.
Qed.

Lemma checked_disjoint (t u : Item) :
  spec_conflict u t = false →
  occupied t ∩ (occupied u ∪ restricted u) = ∅
  ∧ occupied u ∩ (occupied t ∪ restricted t) = ∅.
Proof.
  unfold spec_conflict. intros [H1 H2]%orb_false_iff.
  apply bool_decide_eq_false in H1, H2.
  split; [by apply dec_stable in H2 | by apply dec_stable in H1].
Qed.

(** ** Claims about the conflict resolver *)

Lemma NoDup_ids_NoDup (l : list Item) : NoDup (Item_id <$> l) → NoDup l.
Proof. apply NoDup_fmap_1. Qed.

Lemma later_wins_one_order (l1 l2 l3 : list Item) (A B : Item) :
  NoDup (Item_id <$> (l1 ++ A :: l2 ++ B :: l3)) →
  (∀ i, i ∈ l1 ++ A :: l2 ++ B :: l3 → has_appearance i) →
  occupied A ∩ occupied B ≠ ∅ →
  ∃ out, _render_items (l1 ++ A :: l2 ++ B :: l3) = Ok out
         ∧ (A ∉ out)
         ∧ (B ∈ out ↔ ∀ c, c ∈ l3 → spec_conflict c B = false).
Proof.
  intros Hnd Happ Hov.
  destruct (render_items_total _ Happ) as [out Hrun]. exists out. split; [done|].
  apply render_items_resolve in Hrun as (-> & _ & _); [|by apply NoDup_ids_consistent].
  rewrite spec_plain_resolve by done.
  apply NoDup_ids_NoDup in Hnd.
  apply NoDup_app in Hnd as (_ & _ & Hnd). apply NoDup_cons in Hnd as [HA Hnd].
  apply NoDup_app in Hnd as (_ & _ & Hnd). apply NoDup_cons in Hnd as [HB _].
  assert (A ≠ B ∧ A ∉ l3) as [HAB HA3].
  { split; [intros ->|intros ?]; apply HA, elem_of_app; right; [by left | by right]. }
  unfold plain_resolve.
  replace (l1 ++ A :: l2 ++ B :: l3) with ((l1 ++ A :: l2) ++ [B] ++ l3)
    by (by rewrite <- app_assoc).
  rewrite !fold_left_app. simpl.
  rewrite !elem_of_plain_fold by done. split.
  - intros [[[_ Hc]|?]%elem_of_plain_insert _]; [|done].
    rewrite (spec_conflict_overlap B A) in Hc; [done|].
    by rewrite (comm_L (∩)).
  - split; [by intros [_ ?]|]. intros ?. split; [|done].
    apply elem_of_plain_insert. by right.
Qed.

(** C1 (as amended): in a list of items with pairwise distinct ids, each with
    appearance data, where A comes before B and their occupied zones overlap,
    the conflict scan drops A, and keeps B exactly when no item after B
    conflicts with B; with A and B exchanged in the list, the roles are
    exchanged. *)
Theorem later_wins (l1 l2 l3 : list Item) (A B : Item) :
  NoDup (Item_id <$> (l1 ++ A :: l2 ++ B :: l3)) →
  (∀ i, i ∈ l1 ++ A :: l2 ++ B :: l3 → has_appearance i) →
  occupied A ∩ occupied B ≠ ∅ →
  (∃ out, _render_items (l1 ++ A :: l2 ++ B :: l3) = Ok out
          ∧ (A ∉ out)
          ∧ (B ∈ out ↔ ∀ c, c ∈ l3 → spec_conflict c B = false))
  ∧ (∃ out', _render_items (l1 ++ B :: l2 ++ A :: l3) = Ok out'
             ∧ (B ∉ out')
             ∧ (A ∈ out' ↔ ∀ c, c ∈ l3 → spec_conflict c A = false)).
Proof.
  intros Hnd Happ Hov. split; [by apply later_wins_one_order|].
  assert (l1 ++ B :: l2 ++ A :: l3 ≡ₚ l1 ++ A :: l2 ++ B :: l3) as Hperm.
  { apply Permutation_app_head.
    rewrite <- !Permutation_middle. apply Permutation_swap. }
  apply later_wins_one_order.
  - by rewrite Hperm.
  - intros i Hi. apply Happ. by rewrite <- Hperm.
  - by rewrite (comm_L (∩)).
Qed.

Lemma later_wins_witness :
  (∃ out, _render_items ([] ++ hatA :: [] ++ hatB :: [shoe]) = Ok out
          ∧ (hatA ∉ out)
          ∧ (hatB ∈ out ↔ ∀ c, c ∈ [shoe] → spec_conflict c hatB = false))
  ∧ (∃ out', _render_items ([] ++ hatB :: [] ++ hatA :: [shoe]) = Ok out'
             ∧ (hatB ∉ out')
             ∧ (hatA ∈ out' ↔ ∀ c, c ∈ [shoe] → spec_conflict c hatA = false)).
Proof.
  apply (later_wins [] [] [shoe] hatA hatB).
  - by_evaluation.
  - intros i Hi. all_members Hi; by eexists.
  - by_evaluation.
Defined.

(** With a third item on the same zone, the later of two overlapping items
    does not survive either: the claim of C1, read for every list, fails. *)
Lemma later_wins_not_in_general :
  ¬ (∀ (l1 l2 l3 : list Item) (A B : Item) (out : list Item),
       occupied A ∩ occupied B ≠ ∅ →
       _render_items (l1 ++ A :: l2 ++ B :: l3) = Ok out →
       B ∈ out ∧ A ∉ out).
Proof.
  intros H. destruct (H [] [] [hatC] hatA hatB [hatC]) as [HB _].
  - by_evaluation.
  - vm_compute. reflexivity.
  - apply list_elem_of_singleton in HB. discriminate.
Qed.

Lemma consistent_Forall (l : list Item) :
  Forall (λ a, Forall (λ b, Item_id a = Item_id b → a = b) l) l → consistent l.
Proof.
  intros H a b Ha Hb. rewrite Forall_forall in H. specialize (H a Ha).
  rewrite Forall_forall in H. by apply H.
Qed.

(** C2 (as amended): for every list of items whose members are identified by
    their ids (an item may be listed more than once), each with appearance
    data, the nested scan of the code returns exactly what the reference
    accumulator pass of the specification returns, and that is a subsequence
    of the input. *)
Theorem render_items_refines_spec (items : list Item) :
  consistent items →
  (∀ i, i ∈ items → has_appearance i) →
  _render_items items = Ok (spec_resolve items)
  ∧ spec_resolve items `sublist_of` items.
Proof.
  intros Hcons Happ. destruct (render_items_total _ Happ) as [out Hrun].
  destruct (render_items_resolve items out) as (Hout & _ & Hsub); [done|done|].
  by subst.
Qed.

Lemma render_items_refines_spec_witness :
  _render_items [hatA; shoe; hatA; hatB]
  = Ok (spec_resolve [hatA; shoe; hatA; hatB])
  ∧ spec_resolve [hatA; shoe; hatA; hatB] `sublist_of` [hatA; shoe; hatA; hatB].
Proof.
  apply (render_items_refines_spec [hatA; shoe; hatA; hatB]).
  - apply consistent_Forall. by_evaluation.
  - intros i Hi. all_members Hi; by eexists.
Defined.

(** Two records under one id with different appearance data: [remove] takes
    out the first record of that id, here the one without layers, while the
    reference pass evicts the record that conflicts. *)
Lemma render_items_differs_on_shared_id :
  ¬ (∀ items : list Item,
       (∀ i, i ∈ items → has_appearance i) →
       _render_items items = Ok (spec_resolve items)
       ∧ spec_resolve items `sublist_of` items).
Proof.
  intros H. destruct (H [wigEmpty; wigFull; hatB]) as [Hrun _].
  - intros i Hi. all_members Hi; by eexists.
  - vm_compute in Hrun. discriminate.
Qed.

(** What each pass makes of that list, and of an item listed twice: the code
    and the reference pass keep both copies, where a pass that compared an
    incoming item with its own copy would evict the first. *)
Example resolve_shared_id :
  _render_items [wigEmpty; wigFull; hatB] = Ok [wigFull; hatB]
  ∧ spec_resolve [wigEmpty; wigFull; hatB] = [wigEmpty; hatB]
  ∧ _render_items [hatA; hatA] = Ok [hatA; hatA]
  ∧ spec_resolve [hatA; hatA] = [hatA; hatA]
  ∧ plain_resolve [hatA; hatA] = [hatA].
Proof. vm_compute. repeat split; reflexivity. Qed.

(** C6 (as amended): on a list whose members are identified by their ids, the
    conflict scan is idempotent. *)
Theorem render_items_idempotent (items out : list Item) :
  consistent items → _render_items items = Ok out → _render_items out = Ok out.
Proof.
  intros Hcons Hrun. destruct (render_items_resolve items out) as (_ & Hfop & Hsub); try done.
  apply render_items_fixpoint; [|done]. by apply (consistent_sublist out items).
Qed.

Lemma render_items_idempotent_witness :
  consistent [hatA; hatA; shoe; hatB]
  ∧ _render_items [hatA; hatA; shoe; hatB] = Ok [shoe; hatB]
  ∧ _render_items [shoe; hatB] = Ok [shoe; hatB].
Proof.
  assert (consistent [hatA; hatA; shoe; hatB]) as Hc.
  { apply consistent_Forall. by_evaluation. }
  assert (_render_items [hatA; hatA; shoe; hatB] = Ok [shoe; hatB]) as Hrun.
  { vm_compute. reflexivity. }
  split; [done|]. split; [done|].
  exact (render_items_idempotent [hatA; hatA; shoe; hatB] [shoe; hatB] Hc Hrun).
Defined.

(** Two records under one id defeat idempotence: [remove] takes out the first
    record of that id, not the one that conflicts. *)
Lemma render_items_not_idempotent_in_general :
  ¬ (∀ items out : list Item,
       _render_items items = Ok out → _render_items out = Ok out).
Proof.
  intros H. specialize (H [wigEmpty; wigFull; hatB] [wigFull; hatB]).
  vm_compute in H. specialize (H eq_refl). discriminate.
Qed.

(** C7 (as amended): on a list whose members are identified by their ids,
    each with appearance data, the conflict scan returns a list in which no
    two distinct items conflict. *)
Theorem render_items_conflict_free (items : list Item) :
  consistent items →
  (∀ i, i ∈ items → has_appearance i) →
  ∃ out, _render_items items = Ok out
    ∧ ∀ t u, t ∈ out → u ∈ out → t ≠ u →
        occupied t ∩ (occupied u ∪ restricted u) = ∅
        ∧ occupied u ∩ (occupied t ∪ restricted t) = ∅.
Proof.
  intros Hcons Happ. destruct (render_items_total _ Happ) as [out Hrun].
  exists out. split; [done|].
  destruct (render_items_resolve items out) as (_ & Hfop & Hsub); try done.
  intros t u Ht Hu Hne.
  assert (Item_id t ≠ Item_id u) as Hid.
  { intros Heq. apply Hne. apply Hcons; eauto using elem_of_sublist. }
  destruct (ForallOrdPairs_elem_of compatible out t u Hfop Ht Hu) as [?|[Hc|Hc]]; [done| |].
  - destruct (Hc Hid) as (_ & _ & Hno). by apply checked_disjoint.
  - destruct Hc as (_ & _ & Hno); [congruence|].
    apply checked_disjoint. by rewrite spec_conflict_sym.
Qed.

Lemma render_items_conflict_free_witness :
  ∃ out, _render_items [hatA; hatA; shoe; hatB] = Ok out
    ∧ ∀ t u, t ∈ out → u ∈ out → t ≠ u →
        occupied t ∩ (occupied u ∪ restricted u) = ∅
        ∧ occupied u ∩ (occupied t ∪ restricted t) = ∅.
Proof.
  apply (render_items_conflict_free [hatA; hatA; shoe; hatB]).
  - apply consistent_Forall. by_evaluation.
  - intros i Hi. all_members Hi; by eexists.
Defined.

(** With two records under one id, two items on the same zone both survive. *)
Lemma render_items_conflict_in_general :
  ¬ (∀ items out : list Item,
       (∀ i, i ∈ items → has_appearance i) →
       _render_items items = Ok out →
       ∀ t u, t ∈ out → u ∈ out → t ≠ u →
         occupied t ∩ (occupied u ∪ restricted u) = ∅
         ∧ occupied u ∩ (occupied t ∪ restricted t) = ∅).
Proof.
  intros H.
  destruct (H [wigEmpty; wigFull; hatB] [wigFull; hatB]) with (t := wigFull) (u := hatB)
    as [Hd _].
  - intros i Hi. all_members Hi; by eexists.
  - vm_compute. reflexivity.
  - by left.
  - right. by left.
  - discriminate.
  - assert (occupied wigFull ∩ (occupied hatB ∪ restricted hatB) ≠ ∅) as Hne
      by by_evaluation.
    by apply Hne.
Qed.

(** ** Sorting *)

Section sorting.
Context {A : Type} (key : A → Z).

Lemma insert_by_Permutation x l : insert_by key x l ≡ₚ x :: l.
Proof.
  induction l as [|y l IH]; simpl; [done|].
  case_bool_decide; [|done]. rewrite IH. apply Permutation_swap.
Qed.

Lemma sorted_Permutation l : sorted key l ≡ₚ l.
Proof.
  induction l as [|x l IH]; simpl; [done|].
  by rewrite insert_by_Permutation, IH.
Qed.

Lemma insert_by_sorted x l :
  StronglySorted (key_le key) l → StronglySorted (key_le key) (insert_by key x l).
Proof.
  induction 1 as [|y l Hl IH Hy]; simpl.
  - repeat constructor.
  - case_bool_decide as Hlt.
    + constructor; [done|]. rewrite insert_by_Permutation.
      constructor; [unfold key_le; lia | done].
    + constructor; [by constructor|].
      constructor; [unfold key_le; lia|].
      eapply Forall_impl; [exact Hy|]. unfold key_le. intros z ?. simpl in *. lia.
Qed.

Lemma sorted_sorted l : StronglySorted (key_le key) (sorted key l).
Proof. induction l; simpl; [constructor | by apply insert_by_sorted]. Qed.

(** Stability: the members of any one key keep their relative order. *)
Lemma insert_by_stable d x l :
  filter (λ y, key y = d) (insert_by key x l) = filter (λ y, key y = d) (x :: l).
Proof.
  induction l as [|y l IH]; simpl; [done|].
  case_bool_decide as Hlt; [|done].
  rewrite (filter_cons _ y), IH, !(filter_cons _ x), (filter_cons _ y).
  repeat case_decide; try done. lia.
Qed.

Lemma sorted_stable d l :
  filter (λ y, key y = d) (sorted key l) = filter (λ y, key y = d) l.
Proof.
  induction l as [|x l IH]; simpl; [done|].
  by rewrite insert_by_stable, !filter_cons, IH.
Qed.

(** A sorted list is determined by its members of each key, in order: any
    two stable sorts of a list agree. *)
Lemma stable_sort_unique l1 l2 :
  StronglySorted (key_le key) l1 → StronglySorted (key_le key) l2 →
  (∀ d, filter (λ y, key y = d) l1 = filter (λ y, key y = d) l2) →
  l1 = l2.
Proof.
  intros H1. revert l2. induction H1 as [|x l1 Hs1 IH Hx]; intros l2 H2 Heq.
  - destruct l2 as [|y l2]; [done|].
    specialize (Heq (key y)). rewrite filter_nil, filter_cons_True in Heq by done.
    discriminate.
  - destruct H2 as [|y l2 Hs2 Hy].
    { specialize (Heq (key x)). rewrite filter_nil, filter_cons_True in Heq by done.
      discriminate. }
    assert (key x ≤ key y) as Hxy.
    { pose proof (Heq (key y)) as He.
      rewrite (filter_cons_True _ y) in He by done.
      assert (y ∈ filter (λ z, key z = key y) (x :: l1)) as Hin by (rewrite He; by left).
      apply list_elem_of_filter in Hin as [_ [->|Hin]%elem_of_cons]; [lia|].
      rewrite Forall_forall in Hx. by apply Hx. }
    assert (key y ≤ key x) as Hyx.
    { pose proof (Heq (key x)) as He.
      rewrite (filter_cons_True _ x) in He by done.
      assert (x ∈ filter (λ z, key z = key x) (y :: l2)) as Hin by (rewrite <- He; by left).
      apply list_elem_of_filter in Hin as [_ [->|Hin]%elem_of_cons]; [lia|].
      rewrite Forall_forall in Hy. by apply Hy. }
    assert (x = y) as ->.
    { specialize (Heq (key x)).
      rewrite !filter_cons_True in Heq by lia. congruence. }
    f_equal. apply IH; [done|]. intros d. specialize (Heq d).
    rewrite !filter_cons in Heq. case_decide; congruence.
Qed.
End sorting.

(** ** The layer ordering *)

Lemma List_filter_bool_decide {A : Type} (P : A → Prop) `{!∀ x, Decision (P x)}
    (l : list A) :
  List.filter (λ x, bool_decide (P x)) l = filter P l.
Proof.
  induction l as [|x l IH]; simpl; [done|].
  rewrite filter_cons, IH.
  case_bool_decide; [by rewrite decide_True|by rewrite decide_False].
Qed.

Lemma collect_Ok (items : list Item) (all_layers : list AppearanceLayer) (zones : list Zone) :
  (∀ i, i ∈ items → has_appearance i) →
  for_each collect_step (all_layers, zones) items
  = Ok (all_layers ++ (items ≫= item_layers), zones ++ (items ≫= item_restricted_zones)).
Proof.
  revert all_layers zones. induction items as [|i items IH]; intros al zs Happ; simpl.
  - by rewrite !app_nil_r.
  - destruct (Happ i) as [a Ha]; [by left|].
    unfold appearance_of. rewrite Ha. simpl.
    rewrite IH by (intros j Hj; apply Happ; by right).
    replace (item_layers i) with (ItemAppearance_layers a)
      by (unfold item_layers; by rewrite Ha).
    replace (item_restricted_zones i) with (ItemAppearance_restricted_zones a)
      by (unfold item_restricted_zones; by rewrite Ha).
    by rewrite <- !app_assoc.
Qed.

Lemma zone_set_app (l1 l2 : list Zone) : zone_set (l1 ++ l2) = zone_set l1 ∪ zone_set l2.
Proof. unfold zone_set. by rewrite fmap_app, list_to_set_app_L. Qed.

Lemma restricted_zone_set (i : Item) : restricted i = zone_set (item_restricted_zones i).
Proof. unfold restricted, item_restricted_zones. by destruct (Item_appearance i). Qed.

Lemma zone_set_all_restricted (a : PetAppearance) (items : list Item) :
  zone_set ((items ≫= item_restricted_zones) ++ PetAppearance_restricted_zones a)
  = all_restricted a items.
Proof.
  unfold all_restricted. rewrite zone_set_app, (comm_L (∪)). f_equal.
  induction items as [|i items IH]; [done|].
  by rewrite bind_cons, zone_set_app, fmap_cons, union_list_cons, IH, restricted_zone_set.
Qed.

Lemma elem_of_zone_set (z : Zone) (zones : list Zone) : z ∈ zones → Zone_id z ∈ zone_set zones.
Proof. intros Hz. unfold zone_set. apply elem_of_list_to_set. by apply list_elem_of_fmap_2. Qed.

Lemma order_layers_Ok (a : PetAppearance) (items : list Item) :
  (∀ i, i ∈ items → has_appearance i) →
  order_layers a items
  = Ok (sorted depth_of (filter (visible a items) (concat_layers a items))).
Proof.
  intros Happ. unfold order_layers. rewrite collect_Ok by done. simpl.
  rewrite zone_set_all_restricted.
  by rewrite (List_filter_bool_decide (visible a items)).
Qed.

(** C4: the output of the layer ordering has no layer on a zone that the pet
    appearance or any of the items restricts, whoever contributed the layer. *)
Theorem order_layers_hides_restricted (a : PetAppearance) (items : list Item) :
  (∀ i, i ∈ items → has_appearance i) →
  ∃ layers, order_layers a items = Ok layers
    ∧ ∀ layer, layer ∈ layers →
        Zone_id (Layer_zone layer) ∉ all_restricted a items
        ∧ (∀ z, z ∈ PetAppearance_restricted_zones a →
             Zone_id (Layer_zone layer) ≠ Zone_id z)
        ∧ (∀ i ia z, i ∈ items → Item_appearance i = Some ia →
             z ∈ ItemAppearance_restricted_zones ia →
             Zone_id (Layer_zone layer) ≠ Zone_id z).
Proof.
  intros Happ. eexists. split; [by apply order_layers_Ok|].
  intros layer Hl. rewrite sorted_Permutation in Hl.
  apply list_elem_of_filter in Hl as [Hvis _]. unfold visible in Hvis.
  split; [done|]. split.
  - intros z Hz Heq. apply Hvis. unfold all_restricted. apply elem_of_union. left.
    rewrite Heq. by apply elem_of_zone_set.
  - intros i ia z Hi Hia Hz Heq. apply Hvis. unfold all_restricted.
    apply elem_of_union. right. apply elem_of_union_list.
    exists (restricted i). split; [by apply list_elem_of_fmap_2|].
    unfold restricted. rewrite Hia, Heq. by apply elem_of_zone_set.
Qed.

Lemma order_layers_hides_restricted_witness :
  ∃ layers, order_layers plain_body [hatB; mask] = Ok layers
    ∧ ∀ layer, layer ∈ layers →
        Zone_id (Layer_zone layer) ∉ all_restricted plain_body [hatB; mask]
        ∧ (∀ z, z ∈ PetAppearance_restricted_zones plain_body →
             Zone_id (Layer_zone layer) ≠ Zone_id z)
        ∧ (∀ i ia z, i ∈ [hatB; mask] → Item_appearance i = Some ia →
             z ∈ ItemAppearance_restricted_zones ia →
             Zone_id (Layer_zone layer) ≠ Zone_id z).
Proof.
  apply (order_layers_hides_restricted plain_body [hatB; mask]).
  intros i Hi. all_members Hi; by eexists.
Defined.

(** The body layer on zone 2 is hidden by the mask, which did not contribute
    it. *)
Example order_layers_sample :
  order_layers plain_body [hatB; mask]
  = Ok [mkLayerAt Z3 "shadow.png"; mkLayer Z1; mkLayer Z4].
Proof. vm_compute. reflexivity. Qed.

(** The hat loses zone 1 to the mask in the conflict scan; the shoe, which
    comes last and occupies the zone that the mask restricts, evicts the mask
    in turn. *)
Example render_layers_dressed :
  _render_items (Neopet_items dressed_pet) = Ok [shoe]
  ∧ _render_layers sample_table dressed_pet None
    = Ok [mkLayerAt Z3 "shadow.png"; mkLayer Z2].
Proof. vm_compute. split; reflexivity. Qed.

(** C5: the output of the layer ordering is sorted by non-decreasing zone
    depth, and for each depth its layers come in the order they have in the
    concatenation of the pet appearance's layers and the items' layers. *)
Theorem order_layers_stable_sort (a : PetAppearance) (items : list Item) :
  (∀ i, i ∈ items → has_appearance i) →
  ∃ layers, order_layers a items = Ok layers
    ∧ StronglySorted depth_le layers
    ∧ layers ≡ₚ filter (visible a items) (concat_layers a items)
    ∧ ∀ d, filter (λ layer, depth_of layer = d) layers
           = filter (λ layer, depth_of layer = d)
               (filter (visible a items) (concat_layers a items)).
Proof.
  intros Happ. eexists. split; [by apply order_layers_Ok|].
  split; [apply sorted_sorted|]. split; [apply sorted_Permutation|].
  intros d. apply sorted_stable.
Qed.

Lemma order_layers_stable_sort_witness :
  ∃ layers, order_layers plain_body [hatB; mask] = Ok layers
    ∧ StronglySorted depth_le layers
    ∧ layers ≡ₚ filter (visible plain_body [hatB; mask])
                  (concat_layers plain_body [hatB; mask])
    ∧ ∀ d, filter (λ layer, depth_of layer = d) layers
           = filter (λ layer, depth_of layer = d)
               (filter (visible plain_body [hatB; mask])
                  (concat_layers plain_body [hatB; mask])).
Proof.
  apply (order_layers_stable_sort plain_body [hatB; mask]).
  intros i Hi. all_members Hi; by eexists.
Defined.

(** ** The pose fallback *)

Lemma valid_poses_Ok (table : gmap Z (list PetPose)) (self : Neopet)
    (override_pose : option PetPose) (substitutes : list PetPose) :
  table !! pose_or override_pose (Neopet_pose self) = Some substitutes →
  valid_poses table self override_pose
  = Ok (filter (λ p, Z.land (_valid_poses self) p = p) substitutes).
Proof.
  intros Htable. unfold valid_poses, check. rewrite Htable.
  by rewrite (List_filter_bool_decide (λ p, Z.land (_valid_poses self) p = p)).
Qed.

(** C8: [valid_poses] returns the table's entry for the desired pose, filtered
    to the poses whose bit is contained in the mask, in the table's order; it
    is empty exactly when no candidate's bit is contained in the mask. *)
Theorem valid_poses_filter (table : gmap Z (list PetPose)) (self : Neopet)
    (override_pose : option PetPose) (substitutes : list PetPose) :
  table !! pose_or override_pose (Neopet_pose self) = Some substitutes →
  ∃ poses, valid_poses table self override_pose = Ok poses
    ∧ poses = filter (λ p, Z.land (_valid_poses self) p = p) substitutes
    ∧ poses `sublist_of` substitutes
    ∧ (∀ p, p ∈ poses ↔ p ∈ substitutes ∧ Z.land (_valid_poses self) p = p)
    ∧ (poses = [] ↔ ∀ p, p ∈ substitutes → Z.land (_valid_poses self) p ≠ p).
Proof.
  intros Htable. eexists. split; [by apply valid_poses_Ok|].
  split; [done|]. split; [apply sublist_filter|]. split.
  - intros p. rewrite list_elem_of_filter. tauto.
  - split.
    + intros Hnil p Hp Hland.
      assert (p ∈ filter (λ p, Z.land (_valid_poses self) p = p) substitutes) as Hin
        by by apply list_elem_of_filter.
      rewrite Hnil in Hin. by apply elem_of_nil in Hin.
    + intros Hnone.
      destruct (filter (λ p, Z.land (_valid_poses self) p = p) substitutes)
        as [|p poses] eqn:Hf; [done|].
      assert (p ∈ p :: poses) as Hin by by left.
      rewrite <- Hf in Hin. apply list_elem_of_filter in Hin as [Hland Hp].
      by destruct (Hnone p Hp).
Qed.

Lemma valid_poses_filter_witness :
  ∃ poses, valid_poses sample_table (sample_pet 1 10 [] []) None = Ok poses
    ∧ poses = filter (λ p, Z.land 10 p = p) [1; 2; 8; 16]
    ∧ poses `sublist_of` [1; 2; 8; 16]
    ∧ (∀ p, p ∈ poses ↔ p ∈ [1; 2; 8; 16] ∧ Z.land 10 p = p)
    ∧ (poses = [] ↔ ∀ p, p ∈ [1; 2; 8; 16] → Z.land 10 p ≠ p).
Proof.
  apply (valid_poses_filter sample_table (sample_pet 1 10 [] []) None [1; 2; 8; 16]).
  vm_compute. reflexivity.
Defined.

Example valid_poses_sample :
  valid_poses sample_table (sample_pet 1 10 [] []) None = Ok [2; 8].
Proof. vm_compute. reflexivity. Qed.

Example valid_poses_none :
  valid_poses sample_table (sample_pet 1 4 [] []) (Some 2) = Ok [].
Proof. vm_compute. reflexivity. Qed.

(** ** Missing appearances *)

Lemma for_each_Raise {A S : Type} (body : S → A → result S) (s : S) (l : list A) (e : exn) :
  for_each body s l = Raise e → ∃ s' x, x ∈ l ∧ body s' x = Raise e.
Proof.
  revert s. induction l as [|x l IH]; intros s; [discriminate|].
  rewrite for_each_cons. destruct (body s x) as [s1|e1] eqn:Hb; simpl.
  - intros (s' & y & Hy & He)%IH. exists s', y. split; [by right|done].
  - intros [= ->]. exists s, x. split; [by left|done].
Qed.

Lemma appearance_of_Raise (i : Item) (e : exn) :
  appearance_of i = Raise e → e = AttributeError.
Proof. unfold appearance_of. destruct (Item_appearance i); [discriminate|]. by intros [= <-]. Qed.

Lemma scan_step_Raise item acc temp e : scan_step item acc temp = Raise e → e = AttributeError.
Proof.
  unfold scan_step. destruct (Item_eqb item temp); [discriminate|].
  destruct (negb (Item_in temp acc)); [discriminate|].
  destruct (appearance_of item) as [ia|e1] eqn:Hi; simpl.
  2:{ intros [= <-]. by apply (appearance_of_Raise item). }
  destruct (appearance_of temp) as [ta|e2] eqn:Ht; simpl.
  2:{ intros [= <-]. by apply (appearance_of_Raise temp). }
  by destruct (conflict ia ta).
Qed.

(** The conflict scan raises nothing but [AttributeError]. *)
Lemma render_items_Raise items e : _render_items items = Raise e → e = AttributeError.
Proof.
  intros (acc & item & _ & Hstep)%for_each_Raise.
  unfold render_items_step in Hstep.
  destruct (for_each (scan_step item) acc items) as [acc1|e1] eqn:Hscan; simpl in Hstep;
    [discriminate|].
  injection Hstep as <-. apply for_each_Raise in Hscan as (? & ? & _ & Hs).
  by apply scan_step_Raise in Hs.
Qed.

Lemma order_layers_Raise a items e : order_layers a items = Raise e → e = AttributeError.
Proof.
  unfold order_layers.
  destruct (for_each collect_step (PetAppearance_layers a, []) items) as [[al zs]|e1] eqn:Hc;
    simpl; [discriminate|].
  intros [= <-]. apply for_each_Raise in Hc as ([al zs] & item & _ & Hs).
  unfold collect_step in Hs.
  destruct (appearance_of item) as [ia|e2] eqn:Hi; simpl in Hs; [discriminate|].
  injection Hs as <-. by apply (appearance_of_Raise item).
Qed.

(** C9 (as amended): [_render_layers] raises [MissingPetAppearance] exactly
    when no candidate pose is valid or the first valid pose has no appearance
    record; the message of the exception is made of the species id and the
    color id, and tells the two cases apart; no layer list is returned then. *)
Theorem render_layers_missing (table : gmap Z (list PetPose)) (self : Neopet)
    (pose : option PetPose) (substitutes : list PetPose) :
  table !! pose_or pose (Neopet_pose self) = Some substitutes →
  ((∃ msg, _render_layers table self pose = Raise (MissingPetAppearance msg))
   ↔ filter (λ p, Z.land (_valid_poses self) p = p) substitutes = []
     ∨ ∃ p rest, filter (λ p, Z.land (_valid_poses self) p = p) substitutes = p :: rest
                 ∧ get_pet_appearance self p = None)
  ∧ (∀ msg, _render_layers table self pose = Raise (MissingPetAppearance msg) →
       msg = missing_message (Species_id (Neopet_species self))
               (Color_id (Neopet_color self))
               (bool_decide
                  (filter (λ p, Z.land (_valid_poses self) p = p) substitutes = []))).
Proof.
  intros Htable. unfold _render_layers.
  rewrite (valid_poses_Ok table self pose substitutes Htable). simpl.
  destruct (filter (λ p, Z.land (_valid_poses self) p = p) substitutes) as [|p rest].
  { split; [|by intros msg [= <-]]. split; [by left | by eexists]. }
  destruct (get_pet_appearance self p) as [a|] eqn:Ha.
  - assert (∀ msg, _render_items (Neopet_items self) ≫= order_layers a
                   ≠ Raise (MissingPetAppearance msg)) as Hno.
    { intros msg. destruct (_render_items (Neopet_items self)) as [items|e] eqn:Hi; simpl.
      - intros He. by apply order_layers_Raise in He.
      - intros [= ->]. by apply render_items_Raise in Hi. }
    split.
    + split.
      * intros [msg Hmsg]. by destruct (Hno msg).
      * intros [?|(? & ? & [= <- <-] & ?)]; [done|congruence].
    + intros msg Hmsg. by destruct (Hno msg).
  - split; [|by intros msg [= <-]]. split; [|by eexists].
    intros _. right. by exists p, rest.
Qed.

Lemma render_layers_missing_witness :
  ((∃ msg, _render_layers sample_table (sample_pet 1 10 [] []) None
           = Raise (MissingPetAppearance msg))
   ↔ filter (λ p, Z.land 10 p = p) [1; 2; 8; 16] = []
     ∨ ∃ p rest, filter (λ p, Z.land 10 p = p) [1; 2; 8; 16] = p :: rest
                 ∧ get_pet_appearance (sample_pet 1 10 [] []) p = None)
  ∧ (∀ msg, _render_layers sample_table (sample_pet 1 10 [] []) None
            = Raise (MissingPetAppearance msg) →
       msg = missing_message 1 8
               (bool_decide (filter (λ p, Z.land 10 p = p) [1; 2; 8; 16] = []))).
Proof.
  apply (render_layers_missing sample_table (sample_pet 1 10 [] []) None [1; 2; 8; 16]).
  vm_compute. reflexivity.
Defined.

Example render_layers_no_pose :
  _render_layers sample_table (sample_pet 1 0 [plain_body] []) None
  = Raise (MissingPetAppearance
             ("Pet Appearance <" +:+ dquote +:+ "1-8" +:+ dquote
                +:+ "> does not exist with any poses.")).
Proof. vm_compute. reflexivity. Qed.

Example render_layers_no_record :
  _render_layers sample_table (sample_pet 1 10 [plain_body] []) None
  = Raise (MissingPetAppearance
             ("Pet Appearance <" +:+ dquote +:+ "1-8" +:+ dquote +:+ "> does not exist.")).
Proof. vm_compute. reflexivity. Qed.

(** The exception does not carry the pose: two requests that differ in the
    pose alone raise the same exception, so the pose cannot be read off the
    message. *)
Lemma missing_appearance_forgets_pose :
  ¬ (∃ pose_of : string → PetPose,
       ∀ (table : gmap Z (list PetPose)) (self : Neopet) (pose : option PetPose) msg,
         _render_layers table self pose = Raise (MissingPetAppearance msg) →
         pose_of msg = pose_or pose (Neopet_pose self)).
Proof.
  intros [pose_of H].
  pose proof (H sample_table (sample_pet 1 0 [] []) None _ eq_refl) as H1.
  pose proof (H sample_table (sample_pet 2 0 [] []) None _ eq_refl) as H2.
  vm_compute in H1, H2. congruence.
Qed.

(** ** The compositing loop *)

Lemma for_each_app {A S : Type} (body : S → A → result S) (s : S) (l1 l2 : list A) :
  for_each body s (l1 ++ l2) = for_each body s l1 ≫= λ s', for_each body s' l2.
Proof.
  revert s. induction l1 as [|x l1 IH]; intros s; [done|].
  rewrite <- app_comm_cons, !for_each_cons. destruct (body s x); simpl; [apply IH|done].
Qed.

Section blend_properties.
Context `{Imaging}.

(** C10 (as amended): a layer whose data opens as an image of mode 1 (one
    bit per pixel) is skipped: its step returns without raising and leaves
    the canvas as it was, so that the loop goes on from the same canvas. *)
Theorem one_bit_layer_skipped (self : Neopet) (pose : PetPose) (canvas : Image)
    (foreground : option Image) (layer : AppearanceLayer) (image : list Byte.byte)
    (opened : Image) :
  Image_open image = Ok opened → Image_mode opened = "1" →
  blend_step self pose (canvas, foreground) (layer, image) = Ok (canvas, Some opened)
  ∧ ∀ pre post st,
      for_each (blend_step self pose) st (pre ++ (layer, image) :: post)
      = for_each (blend_step self pose) st pre
          ≫= λ st', for_each (blend_step self pose) (st'.1, Some opened) post.
Proof.
  intros Hopen Hmode.
  assert (∀ c f, blend_step self pose (c, f) (layer, image) = Ok (c, Some opened)) as Hstep.
  { intros c f. unfold blend_step, finally_clause. rewrite Hopen.
    by rewrite bool_decide_true. }
  split; [apply Hstep|].
  intros pre post st. rewrite for_each_app.
  destruct (for_each (blend_step self pose) st pre) as [[c f]|e]; [|done].
  unfold mbind, result_bind. by rewrite for_each_cons, Hstep.
Qed.

(** An image of any other mode is not skipped, an indexed (palette) image
    included: it is converted to RGBA unless it is RGBA already, and
    composited onto the canvas. *)
Lemma other_mode_layer_composited (self : Neopet) (pose : PetPose) (canvas : Image)
    (foreground : option Image) (layer : AppearanceLayer) (image : list Byte.byte)
    (opened : Image) :
  Image_open image = Ok opened → Image_mode opened ≠ "1" →
  blend_step self pose (canvas, foreground) (layer, image)
  = converted ← (if bool_decide (Image_mode opened = "RGBA") then Ok opened
                 else Image_convert opened "RGBA");
    canvas' ← Image_alpha_composite canvas converted;
    Ok (canvas', Some converted).
Proof.
  intros Hopen Hmode. unfold blend_step, finally_clause. rewrite Hopen.
  rewrite bool_decide_false by done.
  destruct (decide (Image_mode opened = "RGBA")) as [Hrgba|Hrgba].
  - rewrite bool_decide_false by (by intros []). by rewrite bool_decide_true.
  - rewrite bool_decide_true by done. by rewrite bool_decide_false.
Qed.

(** When the data of a layer is no image while [foreground] still holds a
    1-bit image, [continue] discards the exception: the step returns as if
    nothing had happened. *)
Lemma broken_layer_after_one_bit (self : Neopet) (pose : PetPose) (canvas previous : Image)
    (layer : AppearanceLayer) (image : list Byte.byte) (e : exn) :
  Image_open image = Raise e → Image_mode previous = "1" →
  blend_step self pose (canvas, Some previous) (layer, image) = Ok (canvas, Some previous).
Proof.
  intros Hopen Hmode. unfold blend_step, finally_clause. rewrite Hopen.
  by rewrite bool_decide_true.
Qed.

(** When the data of the first layer is no image, [foreground] is unbound in
    the [finally] clause. *)
Lemma broken_first_layer (self : Neopet) (pose : PetPose) (canvas : Image)
    (layer : AppearanceLayer) (image : list Byte.byte) (e : exn) :
  Image_open image = Raise e →
  blend_step self pose (canvas, None) (layer, image) = Raise UnboundLocalError.
Proof. intros Hopen. unfold blend_step, finally_clause. by rewrite Hopen. Qed.

(** Otherwise the previous image is composited once more, and if that goes
    through [BrokenAssetImage] is raised for the layer. *)
Lemma broken_layer_after_image (self : Neopet) (pose : PetPose) (canvas previous : Image)
    (layer : AppearanceLayer) (image : list Byte.byte) (e : exn) (canvas' : Image) :
  Image_open image = Raise e → Image_mode previous = "RGBA" →
  Image_alpha_composite canvas previous = Ok canvas' →
  blend_step self pose (canvas, Some previous) (layer, image)
  = Raise (BrokenAssetImage (Neopet_species self) (Neopet_color self) pose layer).
Proof.
  intros Hopen Hmode Hcomp. unfold blend_step, finally_clause. rewrite Hopen, Hmode.
  rewrite bool_decide_false by done. rewrite bool_decide_false by (by intros []).
  simpl. by rewrite Hcomp.
Qed.

End blend_properties.

Lemma one_bit_layer_skipped_witness :
  blend_step (sample_pet 1 1 [] []) 1 (toy_image "RGBA" [], None)
    (mkLayerAt Z3 "1bit.png", String.list_byte_of_string "1bit.png")
  = Ok (toy_image "RGBA" [], Some (toy_image "1" (String.list_byte_of_string "1bit.png")))
  ∧ ∀ pre post st,
      for_each (blend_step (sample_pet 1 1 [] []) 1) st
        (pre ++ (mkLayerAt Z3 "1bit.png", String.list_byte_of_string "1bit.png") :: post)
      = for_each (blend_step (sample_pet 1 1 [] []) 1) st pre
          ≫= λ st', for_each (blend_step (sample_pet 1 1 [] []) 1)
                      (st'.1, Some (toy_image "1" (String.list_byte_of_string "1bit.png")))
                      post.
Proof.
  apply (one_bit_layer_skipped (sample_pet 1 1 [] []) 1 (toy_image "RGBA" []) None
           (mkLayerAt Z3 "1bit.png") (String.list_byte_of_string "1bit.png")
           (toy_image "1" (String.list_byte_of_string "1bit.png"))).
  - vm_compute. reflexivity.
  - vm_compute. reflexivity.
Defined.

(** The claim of C10, read for indexed images as well, fails: a layer that
    opens as a palette image (mode P) is converted and composited, so the
    canvas does not stay as it was. *)
Lemma indexed_layer_not_skipped :
  ¬ (∀ (imaging : Imaging) (self : Neopet) (pose : PetPose) (canvas : Image)
       (foreground : option Image) (layer : AppearanceLayer) (image : list Byte.byte)
       (opened : Image),
       Image_open image = Ok opened →
       Image_mode opened = "1" ∨ Image_mode opened = "P" →
       ∃ foreground', blend_step self pose (canvas, foreground) (layer, image)
                      = Ok (canvas, foreground')).
Proof.
  intros H.
  destruct (H toy_imaging (sample_pet 1 1 [] []) 1 (toy_image "RGBA" []) None
              (mkLayerAt Z3 "Pal") (String.list_byte_of_string "Pal")
              (toy_image "P" (String.list_byte_of_string "Pal")))
    as [foreground' Hstep].
  - vm_compute. reflexivity.
  - right. vm_compute. reflexivity.
  - vm_compute in Hstep. discriminate.
Qed.

(** C3 (where the code departs from it): the second layer of
    [corrupt_after_mask] has data that is no image, yet [render] returns an
    image, because the layer before it opened as a 1-bit image; and when the
    first layer is the one with bad data, [render] fails with
    [UnboundLocalError], not with [BrokenAssetImage]. *)
Theorem corrupt_layer_not_fatal :
  Image_open (String.list_byte_of_string "") = Raise (OtherError "UnidentifiedImageError")
  ∧ render sample_table corrupt_after_mask None = Ok (toy_image "RGBA" [])
  ∧ render sample_table corrupt_first None = Raise UnboundLocalError.
Proof. vm_compute. repeat split; reflexivity. Qed.

(** * Further properties of the code *)

(** ** The conflict scan on arbitrary lists *)

Lemma scan_sublist (item : Item) (temps acc acc' : list Item) :
  for_each (scan_step item) acc temps = Ok acc' → acc' `sublist_of` acc.
Proof.
  revert acc. induction temps as [|temp ts IH]; intros acc Hrun.
  - simpl in Hrun. by injection Hrun as <-.
  - rewrite for_each_cons in Hrun.
    destruct (scan_step item acc temp) as [acc1|] eqn:Hstep; simpl in Hrun; [|discriminate].
    etrans; [by apply IH|].
    apply scan_step_cases in Hstep as [[_ ->]|[(_ & _ & ->)|(_ & _ & _ & _ & ->)]]; try done.
    destruct (spec_conflict item temp); [apply list_remove_sublist|done].
Qed.

Lemma render_items_loop_sublist (items rest acc out : list Item) :
  for_each (render_items_step items) acc rest = Ok out → out `sublist_of` acc ++ rest.
Proof.
  revert acc. induction rest as [|item rest IH]; intros acc Hrun.
  - simpl in Hrun. injection Hrun as <-. by rewrite app_nil_r.
  - rewrite for_each_cons in Hrun.
    destruct (render_items_step items acc item) as [acc2|] eqn:Hstep;
      simpl in Hrun; [|discriminate].
    apply render_items_step_Ok in Hstep as (acc1 & Hscan & ->).
    etrans; [by apply IH|]. rewrite <- app_assoc. simpl.
    apply sublist_app; [|done]. by apply (scan_sublist item items).
Qed.

(** X1: whatever the input, repeated or ill-formed items included, what the
    conflict scan returns is a subsequence of the input: it never adds,
    repeats or reorders items. *)
Theorem render_items_subsequence (items out : list Item) :
  _render_items items = Ok out → out `sublist_of` items.
Proof. intros Hrun. by apply (render_items_loop_sublist items items [] out). Qed.

Lemma render_items_subsequence_witness :
  _render_items [wigEmpty; wigFull; hatB] = Ok [wigFull; hatB]
  ∧ [wigFull; hatB] `sublist_of` [wigEmpty; wigFull; hatB].
Proof.
  assert (_render_items [wigEmpty; wigFull; hatB] = Ok [wigFull; hatB]) as Hrun.
  { vm_compute. reflexivity. }
  split; [done|].
  exact (render_items_subsequence [wigEmpty; wigFull; hatB] [wigFull; hatB] Hrun).
Defined.

(** X2: the conflict scan never drops the item that comes last: the result
    ends with the last item of the input, and it is empty only for the empty
    input. *)
Theorem render_items_keeps_last (items out : list Item) :
  _render_items items = Ok out → last out = last items.
Proof.
  unfold _render_items. generalize items at 1 as all.
  intros all. destruct items as [|x l _] using rev_ind.
  - simpl. by intros [= <-].
  - rewrite for_each_app.
    destruct (for_each (render_items_step all) [] l) as [acc|]; simpl; [|discriminate].
    destruct (render_items_step all acc x) as [acc2|] eqn:Hstep; simpl; [|discriminate].
    intros [= <-]. apply render_items_step_Ok in Hstep as (acc1 & _ & ->).
    by rewrite !last_snoc.
Qed.

Lemma render_items_keeps_last_witness :
  _render_items [hatA; shoe; hatB] = Ok [shoe; hatB]
  ∧ last [shoe; hatB] = last [hatA; shoe; hatB].
Proof.
  assert (_render_items [hatA; shoe; hatB] = Ok [shoe; hatB]) as Hrun.
  { vm_compute. reflexivity. }
  split; [done|].
  exact (render_items_keeps_last [hatA; shoe; hatB] [shoe; hatB] Hrun).
Defined.

Lemma ForallOrdPairs_pairwise (R : Item → Item → Prop) (l : list Item) :
  (∀ t u, t ∈ l → u ∈ l → R t u) → ForallOrdPairs R l.
Proof.
  induction l as [|x l IH]; intros HR; constructor.
  - apply Forall_forall. intros y Hy. apply HR; [by left | by right].
  - apply IH. intros t u Ht Hu. apply HR; by right.
Qed.

(** X3: when no two items of the list conflict, the conflict scan returns the
    list as it is, in whatever order the items are given. *)
Theorem render_items_keeps_compatible (items items' : list Item) :
  consistent items →
  (∀ i, i ∈ items → has_appearance i) →
  (∀ t u, t ∈ items → u ∈ items → Item_id t ≠ Item_id u → spec_conflict t u = false) →
  items' ≡ₚ items →
  _render_items items' = Ok items'.
Proof.
  intros Hcons Happ Hfree Hperm. apply render_items_fixpoint.
  - intros a b Ha Hb. rewrite Hperm in Ha, Hb. by apply Hcons.
  - apply ForallOrdPairs_pairwise. intros t u Ht Hu Hne.
    rewrite Hperm in Ht, Hu. repeat split; auto.
Qed.

Lemma render_items_keeps_compatible_witness :
  _render_items [shoe; hatA; charm] = Ok [shoe; hatA; charm].
Proof.
  apply (render_items_keeps_compatible [hatA; charm; shoe] [shoe; hatA; charm]).
  - apply consistent_Forall. by_evaluation.
  - intros i Hi. all_members Hi; by eexists.
  - intros t u Ht Hu Hne. all_members Ht; all_members Hu;
      first [by destruct Hne | vm_compute; reflexivity].
  - by_evaluation.
Defined.

(** ** Items without appearance data *)

Lemma render_items_loop_appearance (items : list Item) :
  NoDup (Item_id <$> items) →
  ∀ rest pre acc out,
    items = pre ++ rest → acc `sublist_of` pre → acc ≠ [] → rest ≠ [] →
    for_each (render_items_step items) acc rest = Ok out →
    (∀ t, t ∈ acc → has_appearance t) ∧ (∀ x, x ∈ rest → has_appearance x).
Proof.
  intros Hnd. pose proof (NoDup_ids_consistent items Hnd) as Hcons.
  induction rest as [|x rest IH]; intros pre acc out Hitems Hsub Hacc Hrest Hrun; [done|].
  rewrite for_each_cons in Hrun.
  destruct (render_items_step items acc x) as [acc2|] eqn:Hstep; simpl in Hrun; [|discriminate].
  apply render_items_step_Ok in Hstep as (acc1 & Hscan & ->).
  assert (acc `sublist_of` items) as Hsub'.
  { rewrite Hitems. by apply sublist_inserts_r. }
  assert (∀ t, t ∈ acc → Item_id t ≠ Item_id x) as Hfresh.
  { intros t Ht Heq. apply NoDup_ids_NoDup in Hnd. rewrite Hitems in Hnd.
    apply NoDup_app in Hnd as (_ & Hdisj & _).
    assert (t = x) as ->.
    { apply Hcons; [by eapply elem_of_sublist| |done].
      rewrite Hitems. apply elem_of_app. right. by left. }
    apply (Hdisj x); [by eapply elem_of_sublist | by left]. }
  destruct (scan_ok items x Hcons items acc acc1) as [-> Happ]; try done.
  { by apply sublist_subseteq. }
  { intros t _ _. right. by apply count_id_sublist. }
  assert (has_appearance x) as Hx.
  { destruct acc as [|t acc]; [done|]. apply (Happ t); [by left|]. apply Hfresh. by left. }
  split; [intros t Ht; by apply (Happ t); [|apply Hfresh]|].
  intros y [->|Hy]%elem_of_cons; [done|].
  destruct rest as [|x' rest]; [by apply elem_of_nil in Hy|].
  destruct (IH (pre ++ [x]) (filter (keeps x) acc ++ [x]) out) as [_ Hall]; try done.
  - by rewrite <- app_assoc.
  - apply sublist_app; [|done]. etrans; [apply sublist_filter|done].
  - by destruct (filter (keeps x) acc).
  - by apply Hall.
Qed.

(** X4: on a list of two or more items with pairwise distinct ids, the
    conflict scan raises [AttributeError] exactly when some item has no
    appearance data; on a list of at most one item it raises nothing and
    returns the list. *)
Theorem render_items_attribute_error (items : list Item) :
  ((length items ≤ 1)%nat → _render_items items = Ok items)
  ∧ (NoDup (Item_id <$> items) → (2 ≤ length items)%nat →
     (_render_items items = Raise AttributeError
      ↔ ∃ i, i ∈ items ∧ Item_appearance i = None)).
Proof.
  split.
  - destruct items as [|x [|y l]]; simpl; [done| |lia]. intros _.
    unfold _render_items, render_items_step, scan_step. simpl.
    unfold Item_eqb. by rewrite bool_decide_true.
  - intros Hnd Hlen. split.
    + intros Hrun. destruct (decide (Forall has_appearance items)) as [Hall|Hex].
      * rewrite Forall_forall in Hall.
        destruct (render_items_total items Hall) as [out Hout]. congruence.
      * apply not_Forall_Exists in Hex; [|apply _].
        apply Exists_exists in Hex as (i & Hi & Hno). exists i. split; [done|].
        destruct (Item_appearance i) as [a|] eqn:Ha; [|done].
        exfalso. apply Hno. unfold has_appearance. rewrite Ha. by eexists.
    + intros (i & Hi & Hnone).
      destruct (_render_items items) as [out|e] eqn:Hrun.
      2:{ by rewrite (render_items_Raise items e Hrun). }
      exfalso. destruct items as [|x1 [|x2 rest]]; simpl in Hlen; [lia|lia|].
      unfold _render_items in Hrun. rewrite for_each_cons in Hrun.
      destruct (render_items_step (x1 :: x2 :: rest) [] x1) as [acc2|] eqn:Hstep;
        simpl in Hrun; [|discriminate].
      apply render_items_step_Ok in Hstep as (acc1 & Hscan & ->).
      apply scan_sublist, sublist_nil_r in Hscan as ->.
      destruct (render_items_loop_appearance (x1 :: x2 :: rest) Hnd (x2 :: rest) [x1] [x1] out)
        as [H1 H2]; try done.
      assert (has_appearance i) as [a Ha]; [|congruence].
      apply elem_of_cons in Hi as [->|Hi]; [apply H1; by left | by apply H2].
Qed.

Lemma render_items_attribute_error_witness :
  _render_items [bare] = Ok [bare]
  ∧ (_render_items [hatA; bare] = Raise AttributeError
     ↔ ∃ i, i ∈ [hatA; bare] ∧ Item_appearance i = None).
Proof.
  split.
  - apply (proj1 (render_items_attribute_error [bare])). simpl. lia.
  - apply (proj2 (render_items_attribute_error [hatA; bare])).
    + by_evaluation.
    + simpl. lia.
Defined.

Example render_items_bare :
  _render_items [hatA; bare] = Raise AttributeError
  ∧ _render_items [bare; hatA] = Raise AttributeError
  ∧ _render_items [bare] = Ok [bare].
Proof. vm_compute. repeat split; reflexivity. Qed.

(** ** Items that occupy and restrict nothing *)

Lemma inert_no_conflict (i t : Item) :
  occupied i = ∅ → restricted i = ∅ →
  spec_conflict i t = false ∧ spec_conflict t i = false.
Proof.
  intros Ho Hr. rewrite (spec_conflict_sym t i). split; unfold spec_conflict;
    rewrite Ho, Hr; apply orb_false_iff; split; apply bool_decide_eq_false;
    intros Hne; apply Hne; set_solver.
Qed.

Lemma plain_fold_without_inert (i : Item) (rest acc : list Item) :
  occupied i = ∅ → restricted i = ∅ →
  filter (λ t, t ≠ i) (fold_left plain_insert rest acc)
  = fold_left plain_insert (filter (λ t, t ≠ i) rest) (filter (λ t, t ≠ i) acc).
Proof.
  intros Ho Hr. revert acc. induction rest as [|x rest IH]; intros acc; [done|].
  simpl. rewrite IH. rewrite filter_cons. destruct (decide (x ≠ i)) as [Hne|Heq].
  - simpl. f_equal. unfold plain_insert.
    rewrite filter_app, filter_cons_True, filter_nil by done. f_equal.
    rewrite !list_filter_filter. apply list_filter_iff. tauto.
  - apply dec_stable in Heq as ->. f_equal. unfold plain_insert.
    rewrite filter_app, filter_cons_False, filter_nil, app_nil_r by (by intros []).
    f_equal. apply filter_all. intros t _.
    destruct (inert_no_conflict i t Ho Hr) as [-> _]. by intros [].
Qed.

(** X5: an item that has appearance data but neither layers nor restricted
    zones is always kept by the conflict scan, and the other items fare the
    same with it or without it. *)
Theorem render_items_inert_item (items : list Item) (i : Item) :
  NoDup (Item_id <$> items) →
  (∀ t, t ∈ items → has_appearance t) →
  i ∈ items → occupied i = ∅ → restricted i = ∅ →
  ∃ out out',
    _render_items items = Ok out
    ∧ _render_items (filter (λ t, t ≠ i) items) = Ok out'
    ∧ i ∈ out
    ∧ out' = filter (λ t, t ≠ i) out.
Proof.
  intros Hnd Happ Hi Ho Hr.
  assert (NoDup (Item_id <$> filter (λ t, t ≠ i) items)) as Hnd'.
  { eapply sublist_NoDup; [exact Hnd|]. apply fmap_sublist, sublist_filter. }
  assert (∀ t, t ∈ filter (λ t, t ≠ i) items → has_appearance t) as Happ'.
  { intros t [_ Ht]%list_elem_of_filter. by apply Happ. }
  destruct (render_items_total _ Happ) as [out Hrun].
  destruct (render_items_total _ Happ') as [out' Hrun'].
  exists out, out'. split; [done|]. split; [done|].
  apply render_items_resolve in Hrun as (-> & _ & _); [|by apply NoDup_ids_consistent].
  apply render_items_resolve in Hrun' as (-> & _ & _); [|by apply NoDup_ids_consistent].
  rewrite !spec_plain_resolve by done. split.
  - apply list_elem_of_split in Hi as (l1 & l2 & ->).
    apply NoDup_ids_NoDup in Hnd. apply NoDup_app in Hnd as (_ & _ & Hnd).
    apply NoDup_cons in Hnd as [Hi2 _].
    unfold plain_resolve. rewrite fold_left_app. simpl.
    apply elem_of_plain_fold; [done|]. split.
    + apply elem_of_plain_insert. by right.
    + intros c _. by destruct (inert_no_conflict i c Ho Hr) as [_ ->].
  - unfold plain_resolve. by rewrite (plain_fold_without_inert i items [] Ho Hr).
Qed.

Lemma render_items_inert_item_witness :
  ∃ out out',
    _render_items [hatA; charm; hatB] = Ok out
    ∧ _render_items (filter (λ t, t ≠ charm) [hatA; charm; hatB]) = Ok out'
    ∧ charm ∈ out
    ∧ out' = filter (λ t, t ≠ charm) out.
Proof.
  apply (render_items_inert_item [hatA; charm; hatB] charm).
  - by_evaluation.
  - intros i Hi. all_members Hi; by eexists.
  - by_evaluation.
  - vm_compute. reflexivity.
  - vm_compute. reflexivity.
Defined.

(** ** The conflict test *)

Lemma truthy_intersection (xs ys : list Zone) :
  truthy (zone_set xs ∩ zone_set ys) = true
  ↔ ∃ z z', z ∈ xs ∧ z' ∈ ys ∧ Zone_id z = Zone_id z'.
Proof.
  unfold truthy, zone_set. rewrite bool_decide_eq_true. split.
  - intros (n & Hn)%set_choose_L.
    apply elem_of_intersection in Hn as [Hx Hy].
    apply elem_of_list_to_set, list_elem_of_fmap in Hx as (z & -> & Hz).
    apply elem_of_list_to_set, list_elem_of_fmap in Hy as (z' & Heq & Hz').
    by exists z, z'.
  - intros (z & z' & Hz & Hz' & Heq) Hempty.
    assert (Zone_id z ∈ (∅ : gset Z)) as Hin; [|by apply elem_of_empty in Hin].
    rewrite <- Hempty. apply elem_of_intersection.
    split; apply elem_of_list_to_set; [|rewrite Heq]; by apply list_elem_of_fmap_2.
Qed.

(** X6: the conflict test of the scan is symmetric, and it holds exactly when
    a zone that one appearance occupies has the id of a zone that the other
    occupies or restricts; two appearances that merely restrict the same zone
    do not conflict. *)
Theorem conflict_overlap (item temp : ItemAppearance) :
  conflict item temp = conflict temp item
  ∧ (conflict item temp = true
     ↔ (∃ z z', z ∈ occupies item
                ∧ z' ∈ occupies temp ++ ItemAppearance_restricted_zones temp
                ∧ Zone_id z = Zone_id z')
       ∨ (∃ z z', z ∈ occupies temp
                  ∧ z' ∈ occupies item ++ ItemAppearance_restricted_zones item
                  ∧ Zone_id z = Zone_id z'))
  ∧ (occupies item = [] → occupies temp = [] → conflict item temp = false).
Proof.
  split; [unfold conflict; apply orb_comm|]. split.
  - unfold conflict. by rewrite orb_true_iff, !truthy_intersection.
  - intros Hi Ht. apply not_true_is_false. unfold conflict.
    rewrite orb_true_iff, !truthy_intersection, Hi, Ht.
    intros [(z & _ & Hz & _)|(z & _ & Hz & _)]; by apply elem_of_nil in Hz.
Qed.

(** ** The pose mask *)

Lemma land_eq_iff (m p : Z) :
  Z.land m p = p ↔ ∀ n, 0 ≤ n → Z.testbit p n = true → Z.testbit m n = true.
Proof.
  split.
  - intros Heq n Hn Hp. rewrite <- Heq, Z.land_spec in Hp.
    by apply andb_true_iff in Hp as [? _].
  - intros Hbits. apply Z.bits_inj'. intros n Hn. rewrite Z.land_spec.
    destruct (Z.testbit p n) eqn:Hp; [|apply andb_false_r].
    by rewrite (Hbits n Hn Hp).
Qed.

Lemma check_true (self : Neopet) (p : PetPose) :
  check self p = true ↔ Z.land (_valid_poses self) p = p.
Proof. unfold check. apply bool_decide_eq_true. Qed.

(** X7: [check] accepts a combination of poses exactly when it accepts each of
    them, it accepts the zero pose under every mask, and what it accepts
    under a mask it accepts under every mask that contains that mask. *)
Theorem check_bits (self self' : Neopet) (p q : PetPose) :
  check self (Z.lor p q) = check self p && check self q
  ∧ check self 0 = true
  ∧ (Z.land (_valid_poses self') (_valid_poses self) = _valid_poses self →
     check self p = true → check self' p = true).
Proof.
  split; [|split].
  - apply eq_true_iff_eq. rewrite andb_true_iff, !check_true, !land_eq_iff. split.
    + intros H. split; intros n Hn Hb; apply (H n Hn); rewrite Z.lor_spec, Hb;
        [done|apply orb_true_r].
    + intros [Hp Hq] n Hn Hb. rewrite Z.lor_spec in Hb.
      apply orb_true_iff in Hb as [Hb|Hb]; eauto.
  - apply check_true, Z.land_0_r.
  - rewrite !check_true, !land_eq_iff. intros Hsub Hp n Hn Hb. eauto.
Qed.

Lemma check_bits_witness :
  check (sample_pet 1 10 [] []) (Z.lor 2 8)
  = check (sample_pet 1 10 [] []) 2 && check (sample_pet 1 10 [] []) 8
  ∧ check (sample_pet 1 10 [] []) 0 = true
  ∧ check (sample_pet 1 11 [] []) 2 = true.
Proof.
  destruct (check_bits (sample_pet 1 10 [] []) (sample_pet 1 11 [] []) 2 8)
    as (H1 & H2 & H3).
  split; [exact H1|]. split; [exact H2|].
  apply H3; vm_compute; reflexivity.
Defined.

(** ** get_pet_appearance *)

(** X8: [get_pet_appearance] returns the first appearance record of the pet
    that has the pose asked for, and [None] exactly when no record has it. *)
Theorem get_pet_appearance_first (self : Neopet) (pose : PetPose) :
  (get_pet_appearance self pose = None
   ↔ ∀ a, a ∈ Neopet_appearances self → PetAppearance_pose a ≠ pose)
  ∧ (∀ a, get_pet_appearance self pose = Some a →
       ∃ l1 l2, Neopet_appearances self = l1 ++ a :: l2
                ∧ PetAppearance_pose a = pose
                ∧ ∀ b, b ∈ l1 → PetAppearance_pose b ≠ pose).
Proof.
  unfold get_pet_appearance. induction (Neopet_appearances self) as [|x l [IH1 IH2]]; simpl.
  - split; [|discriminate]. split; [|done]. intros _ a Ha. by apply elem_of_nil in Ha.
  - case_bool_decide as Hx.
    + split.
      * split; [discriminate|]. intros H. destruct (H x); [by left|done].
      * intros a [= <-]. exists [], l. split; [done|]. split; [done|].
        intros b Hb. by apply elem_of_nil in Hb.
    + split.
      * rewrite IH1. split.
        -- intros H a [->|Ha]%elem_of_cons; auto.
        -- intros H a Ha. apply H. by right.
      * intros a (l1 & l2 & -> & Hp & Hl1)%IH2. exists (x :: l1), l2.
        split; [done|]. split; [done|]. intros b [->|Hb]%elem_of_cons; auto.
Qed.

Lemma find_appearance_Some (self : Neopet) (pose : PetPose) (a : PetAppearance) :
  get_pet_appearance self pose = Some a →
  a ∈ Neopet_appearances self ∧ PetAppearance_pose a = pose.
Proof.
  unfold get_pet_appearance. intros [Hin Hp]%find_some.
  split; [by apply list_elem_of_In | by apply bool_decide_eq_true in Hp].
Qed.

(** ** Poses missing from the table *)

Lemma pose_or_idem (o : option PetPose) (d : PetPose) :
  pose_or (Some (pose_or o d)) d = pose_or o d.
Proof.
  unfold pose_or. destruct o as [p|]; repeat case_bool_decide; congruence.
Qed.

(** X9: when the table of substitutes has no entry for the desired pose,
    [valid_poses], [_render_layers] and [render] all raise [KeyError]. *)
Theorem missing_table_entry `{Imaging} `{Http} (table : gmap Z (list PetPose))
    (self : Neopet) (pose : option PetPose) :
  table !! pose_or pose (Neopet_pose self) = None →
  valid_poses table self pose = Raise KeyError
  ∧ _render_layers table self pose = Raise KeyError
  ∧ render table self pose = Raise KeyError.
Proof.
  intros Hnone.
  assert (valid_poses table self pose = Raise KeyError) as Hv
    by (unfold valid_poses; by rewrite Hnone).
  split; [done|]. split.
  - unfold _render_layers. by rewrite Hv.
  - unfold render, _render_layers, valid_poses. by rewrite pose_or_idem, Hnone.
Qed.

Lemma missing_table_entry_witness :
  valid_poses sample_table (sample_pet 4 15 [plain_body] []) None = Raise KeyError
  ∧ _render_layers sample_table (sample_pet 4 15 [plain_body] []) None = Raise KeyError
  ∧ render sample_table (sample_pet 4 15 [plain_body] []) None = Raise KeyError.
Proof.
  apply (missing_table_entry sample_table (sample_pet 4 15 [plain_body] []) None).
  vm_compute. reflexivity.
Defined.

(** ** _render_layers and items without appearance data *)

Lemma collect_Ok_appearance (items : list Item) st st' :
  for_each collect_step st items = Ok st' → ∀ i, i ∈ items → has_appearance i.
Proof.
  revert st. induction items as [|x l IH]; intros [al zs] Hrun i Hi.
  - by apply elem_of_nil in Hi.
  - rewrite for_each_cons in Hrun.
    destruct (collect_step (al, zs) x) as [st1|] eqn:Hstep; simpl in Hrun; [|discriminate].
    unfold collect_step in Hstep.
    destruct (appearance_of x) as [ia|] eqn:Hia; simpl in Hstep; [|discriminate].
    apply appearance_of_Ok in Hia.
    apply elem_of_cons in Hi as [->|Hi]; [by exists ia | by eapply IH].
Qed.

Lemma order_layers_Ok_appearance (a : PetAppearance) (items : list Item) layers :
  order_layers a items = Ok layers → ∀ i, i ∈ items → has_appearance i.
Proof.
  unfold order_layers.
  destruct (for_each collect_step (PetAppearance_layers a, []) items) as [st|] eqn:Hc;
    [|discriminate].
  intros _. by eapply collect_Ok_appearance.
Qed.

Lemma elem_of_spec_fold (i : Item) (rest acc : list Item) :
  (∀ t, keeps t i) → i ∈ acc ∨ i ∈ rest → i ∈ fold_left spec_insert rest acc.
Proof.
  intros Hk. revert acc. induction rest as [|x rest IH]; intros acc [Hi|Hi]; simpl.
  - done.
  - by apply elem_of_nil in Hi.
  - apply IH. left. unfold spec_insert. apply elem_of_app. left.
    by apply list_elem_of_filter.
  - apply elem_of_cons in Hi as [->|Hi]; apply IH; [left|by right].
    unfold spec_insert. apply elem_of_app. right. by left.
Qed.

(** X10: once the pose has resolved to an appearance record, [_render_layers]
    returns a layer list exactly when every item of the pet has appearance
    data, and raises [AttributeError] as soon as one item has none: such an
    item is never skipped. *)
Theorem render_layers_needs_appearance (table : gmap Z (list PetPose)) (self : Neopet)
    (pose : option PetPose) (substitutes rest : list PetPose) (p : PetPose)
    (a : PetAppearance) :
  table !! pose_or pose (Neopet_pose self) = Some substitutes →
  filter (λ p, Z.land (_valid_poses self) p = p) substitutes = p :: rest →
  get_pet_appearance self p = Some a →
  consistent (Neopet_items self) →
  ((∃ layers, _render_layers table self pose = Ok layers)
   ↔ ∀ i, i ∈ Neopet_items self → has_appearance i)
  ∧ (_render_layers table self pose = Raise AttributeError
     ↔ ∃ i, i ∈ Neopet_items self ∧ Item_appearance i = None).
Proof.
  intros Htable Hvalid Ha Hcons. unfold _render_layers.
  rewrite (valid_poses_Ok table self pose substitutes Htable), Hvalid. simpl. rewrite Ha.
  assert ((∃ i, i ∈ Neopet_items self ∧ Item_appearance i = None) →
          (_render_items (Neopet_items self) ≫= λ items, order_layers a items) = Raise AttributeError)
    as Hraise.
  { intros (i & Hi & Hnone).
    destruct (_render_items (Neopet_items self)) as [out|e] eqn:Hrun; simpl.
    2:{ by rewrite (render_items_Raise _ e Hrun). }
    destruct (order_layers a out) as [layers|e] eqn:Hord.
    2:{ by rewrite (order_layers_Raise a out e Hord). }
    exfalso. destruct (order_layers_Ok_appearance a out layers Hord i) as [ia Hia];
      [|congruence].
    apply render_items_resolve in Hrun as (-> & _ & _); [|done].
    apply elem_of_spec_fold; [|by right].
    intros t. right. rewrite spec_conflict_sym, spec_conflict_no_appearance_l by done.
    by intros []. }
  assert ((∀ i, i ∈ Neopet_items self → has_appearance i) →
          ∃ layers, (_render_items (Neopet_items self) ≫= λ items, order_layers a items) = Ok layers)
    as Hok.
  { intros Hall. destruct (render_items_total _ Hall) as [out Hrun]. rewrite Hrun. simpl.
    eexists. apply order_layers_Ok. intros i Hi. apply Hall.
    apply render_items_resolve in Hrun as (_ & _ & Hsub); [|done].
    by eapply elem_of_sublist. }
  assert (∀ i, i ∈ Neopet_items self → has_appearance i ∨ Item_appearance i = None) as Hdec.
  { intros i _. unfold has_appearance. destruct (Item_appearance i); [left; by eexists|by right]. }
  split; split.
  - intros [layers Hl] i Hi. destruct (Hdec i Hi) as [|Hnone]; [done|].
    rewrite Hraise in Hl by eauto. discriminate.
  - done.
  - intros Hr. destruct (decide (Forall has_appearance (Neopet_items self))) as [Hall|Hex].
    + rewrite Forall_forall in Hall. destruct (Hok Hall) as [layers Hl]. congruence.
    + apply not_Forall_Exists in Hex; [|apply _].
      apply Exists_exists in Hex as (i & Hi & Hno). exists i. split; [done|].
      by destruct (Hdec i Hi).
  - done.
Qed.

Lemma render_layers_needs_appearance_witness :
  ((∃ layers, _render_layers sample_table (sample_pet 1 1 [plain_body] [bare]) None
              = Ok layers)
   ↔ ∀ i, i ∈ Neopet_items (sample_pet 1 1 [plain_body] [bare]) → has_appearance i)
  ∧ (_render_layers sample_table (sample_pet 1 1 [plain_body] [bare]) None
     = Raise AttributeError
     ↔ ∃ i, i ∈ Neopet_items (sample_pet 1 1 [plain_body] [bare])
            ∧ Item_appearance i = None).
Proof.
  apply (render_layers_needs_appearance sample_table (sample_pet 1 1 [plain_body] [bare])
           None [1; 2; 8; 16] [] 1 plain_body).
  - vm_compute. reflexivity.
  - vm_compute. reflexivity.
  - vm_compute. reflexivity.
  - apply consistent_Forall. by_evaluation.
Defined.

Example render_layers_bare :
  _render_items [bare] = Ok [bare]
  ∧ _render_layers sample_table (sample_pet 1 1 [plain_body] [bare]) None
    = Raise AttributeError.
Proof. vm_compute. split; reflexivity. Qed.

(** X11: every layer that [_render_layers] returns is a layer of one appearance
    record of the pet, whose pose passes [check], or a layer of one of the
    pet's items; and its zone is not among those that the record restricts. *)
Theorem render_layers_provenance (table : gmap Z (list PetPose)) (self : Neopet)
    (pose : option PetPose) (layers : list AppearanceLayer) :
  _render_layers table self pose = Ok layers →
  ∃ a, a ∈ Neopet_appearances self
    ∧ check self (PetAppearance_pose a) = true
    ∧ ∀ layer, layer ∈ layers →
        (layer ∈ PetAppearance_layers a
         ∨ ∃ i, i ∈ Neopet_items self ∧ layer ∈ item_layers i)
        ∧ (∀ z, z ∈ PetAppearance_restricted_zones a →
             Zone_id (Layer_zone layer) ≠ Zone_id z).
Proof.
  unfold _render_layers, valid_poses.
  destruct (table !! pose_or pose (Neopet_pose self)) as [substitutes|]; [|discriminate].
  simpl. destruct (List.filter (check self) substitutes) as [|p rest] eqn:Hvalid;
    [discriminate|].
  assert (check self p = true) as Hcheck.
  { assert (In p (List.filter (check self) substitutes)) as Hin by (rewrite Hvalid; by left).
    by apply filter_In in Hin as [_ ?]. }
  destruct (get_pet_appearance self p) as [a|] eqn:Ha; [|discriminate].
  apply find_appearance_Some in Ha as [Hin <-].
  destruct (_render_items (Neopet_items self)) as [out|] eqn:Hrun; simpl; [|discriminate].
  intros Hord. exists a. split; [done|]. split; [done|].
  pose proof (order_layers_Ok_appearance a out layers Hord) as Happ.
  rewrite (order_layers_Ok a out Happ) in Hord. injection Hord as <-.
  intros layer Hl. rewrite sorted_Permutation in Hl.
  apply list_elem_of_filter in Hl as [Hvis Hl]. split.
  - unfold concat_layers in Hl. apply elem_of_app in Hl as [?|Hl]; [by left|right].
    apply list_elem_of_bind in Hl as (i & Hli & Hi). exists i. split; [|done].
    eapply elem_of_sublist; [exact Hi|].
    by apply (render_items_loop_sublist (Neopet_items self) (Neopet_items self) [] out).
  - intros z Hz Heq. apply Hvis. unfold all_restricted. apply elem_of_union. left.
    rewrite Heq. by apply elem_of_zone_set.
Qed.

Lemma render_layers_provenance_witness :
  ∃ a, a ∈ Neopet_appearances dressed_pet
    ∧ check dressed_pet (PetAppearance_pose a) = true
    ∧ ∀ layer, layer ∈ [mkLayerAt Z3 "shadow.png"; mkLayer Z2] →
        (layer ∈ PetAppearance_layers a
         ∨ ∃ i, i ∈ Neopet_items dressed_pet ∧ layer ∈ item_layers i)
        ∧ (∀ z, z ∈ PetAppearance_restricted_zones a →
             Zone_id (Layer_zone layer) ≠ Zone_id z).
Proof.
  apply (render_layers_provenance sample_table dressed_pet None).
  vm_compute. reflexivity.
Defined.

(** ** Downloads *)

Lemma gather_Ok `{Http} (urls : list string) (datas : list (list Byte.byte)) :
  gather urls = Ok datas ↔ Forall2 (λ url data, get_binary_data url = Ok data) urls datas.
Proof.
  revert datas. induction urls as [|url urls IH]; intros datas; simpl.
  - split; [intros [= <-]; constructor | by intros ->%Forall2_nil_inv_l].
  - destruct (get_binary_data url) as [data|e] eqn:Hurl; simpl.
    + destruct (gather urls) as [ds|e] eqn:Hg; simpl.
      * split.
        -- intros [= <-]. constructor; [done|]. by apply IH.
        -- intros (d' & ds' & Hd & Hds & ->)%Forall2_cons_inv_l.
           apply IH in Hds. congruence.
      * split; [discriminate|].
        intros (d' & ds' & _ & Hds & ->)%Forall2_cons_inv_l. by apply IH in Hds.
    + split; [discriminate|].
      intros (d' & ds' & Hd & _ & ->)%Forall2_cons_inv_l. congruence.
Qed.

Lemma gather_Raise `{Http} (urls : list string) (e : exn) :
  gather urls = Raise e → ∃ url, url ∈ urls ∧ get_binary_data url = Raise e.
Proof.
  induction urls as [|url urls IH]; simpl; [discriminate|].
  destruct (get_binary_data url) as [data|e'] eqn:Hurl; simpl.
  - destruct (gather urls) as [ds|e'] eqn:Hg; simpl; [discriminate|].
    intros [= ->]. destruct IH as (u & Hu & He); [done|]. exists u. split; [by right|done].
  - intros [= ->]. exists url. split; [by left|done].
Qed.

Lemma render_layers_pose_or (table : gmap Z (list PetPose)) (self : Neopet)
    (pose : option PetPose) :
  _render_layers table self (Some (pose_or pose (Neopet_pose self)))
  = _render_layers table self pose.
Proof. unfold _render_layers, valid_poses. by rewrite pose_or_idem. Qed.

Lemma render_unfold `{Imaging} `{Http} (table : gmap Z (list PetPose)) (self : Neopet)
    (pose : option PetPose) :
  render table self pose
  = _render_layers table self pose ≫= λ layers,
      gather (Layer_image_url <$> layers) ≫= λ images,
        for_each (blend_step self (pose_or pose (Neopet_pose self)))
          (Image_new (canvas_size self), None) (zip layers images)
        ≫= λ st, Ok st.1.
Proof. unfold render. by rewrite render_layers_pose_or. Qed.

(** X12: when the download of a layer fails, [render] raises the exception of
    a failed download; when all downloads succeed, the data reach the loop in
    the order of the layers, one per layer. *)
Theorem render_download_failure `{Imaging} `{Http} (table : gmap Z (list PetPose))
    (self : Neopet) (pose : option PetPose) (layers : list AppearanceLayer) :
  _render_layers table self pose = Ok layers →
  (∀ e, gather (Layer_image_url <$> layers) = Raise e →
     render table self pose = Raise e
     ∧ ∃ layer, layer ∈ layers ∧ get_binary_data (Layer_image_url layer) = Raise e)
  ∧ (∀ images, gather (Layer_image_url <$> layers) = Ok images →
       Forall2 (λ layer image, get_binary_data (Layer_image_url layer) = Ok image)
         layers images)
  ∧ ((∃ layer, layer ∈ layers ∧ ∃ e, get_binary_data (Layer_image_url layer) = Raise e) →
     ∃ e, render table self pose = Raise e
          ∧ ∃ layer, layer ∈ layers ∧ get_binary_data (Layer_image_url layer) = Raise e).
Proof.
  intros Hlayers.
  assert (∀ e, gather (Layer_image_url <$> layers) = Raise e →
     render table self pose = Raise e
     ∧ ∃ layer, layer ∈ layers ∧ get_binary_data (Layer_image_url layer) = Raise e) as Hfail.
  { intros e Hg. split.
    - rewrite render_unfold, Hlayers. simpl. by rewrite Hg.
    - apply gather_Raise in Hg as (url & (layer & -> & Hl)%list_elem_of_fmap & He).
      by exists layer. }
  split; [done|]. split.
  - intros images Hg%gather_Ok. by apply Forall2_fmap_l in Hg.
  - intros (layer & Hl & e & He).
    destruct (gather (Layer_image_url <$> layers)) as [images|e'] eqn:Hg.
    + apply gather_Ok, Forall2_fmap_l in Hg.
      apply list_elem_of_lookup in Hl as [k Hk].
      destruct (Forall2_lookup_l _ _ _ _ _ Hg Hk) as (image & _ & Himage). congruence.
    + exists e'. by apply Hfail.
Qed.

Lemma render_download_failure_witness :
  (∀ e, @gather flaky_http (Layer_image_url <$> [mkLayerAt Z3 ""; mkLayerAt Z2 "body.png"])
        = Raise e →
     @render toy_imaging flaky_http sample_table corrupt_first None = Raise e
     ∧ ∃ layer, layer ∈ [mkLayerAt Z3 ""; mkLayerAt Z2 "body.png"]
                ∧ @get_binary_data flaky_http (Layer_image_url layer) = Raise e)
  ∧ (∀ images,
       @gather flaky_http (Layer_image_url <$> [mkLayerAt Z3 ""; mkLayerAt Z2 "body.png"])
       = Ok images →
       Forall2 (λ layer image,
                  @get_binary_data flaky_http (Layer_image_url layer) = Ok image)
         [mkLayerAt Z3 ""; mkLayerAt Z2 "body.png"] images)
  ∧ ((∃ layer, layer ∈ [mkLayerAt Z3 ""; mkLayerAt Z2 "body.png"]
               ∧ ∃ e, @get_binary_data flaky_http (Layer_image_url layer) = Raise e) →
     ∃ e, @render toy_imaging flaky_http sample_table corrupt_first None = Raise e
          ∧ ∃ layer, layer ∈ [mkLayerAt Z3 ""; mkLayerAt Z2 "body.png"]
                     ∧ @get_binary_data flaky_http (Layer_image_url layer) = Raise e).
Proof.
  apply (@render_download_failure toy_imaging flaky_http sample_table corrupt_first None
           [mkLayerAt Z3 ""; mkLayerAt Z2 "body.png"]).
  vm_compute. reflexivity.
Defined.

Example render_download_failure_sample :
  @render toy_imaging flaky_http sample_table corrupt_first None
  = Raise (OtherError "ClientError").
Proof. vm_compute. reflexivity. Qed.

(** ** The compositing loop when every image opens *)

Section paint_properties.
Context `{Imaging}.

Lemma blend_step_opened (self : Neopet) (pose : PetPose) (canvas : Image)
    (foreground : option Image) (layer : AppearanceLayer) (image : list Byte.byte)
    (opened : Image) :
  Image_open image = Ok opened →
  (blend_step self pose (canvas, foreground) (layer, image) ≫= λ st, Ok st.1)
  = paint canvas opened.
Proof.
  intros Hopen. unfold blend_step, finally_clause, paint. rewrite Hopen.
  case_bool_decide; [done|].
  destruct (if bool_decide (Image_mode opened ≠ "RGBA")
            then Image_convert opened "RGBA" else Ok opened) as [fg|]; simpl; [|done].
  by destruct (Image_alpha_composite canvas fg).
Qed.

Lemma blend_loop_opened (self : Neopet) (pose : PetPose) (images : list (list Byte.byte))
    (opened : list Image) :
  Forall2 (λ image im, Image_open image = Ok im) images opened →
  ∀ (layers : list AppearanceLayer) (canvas : Image) (foreground : option Image),
    length layers = length images →
    (for_each (blend_step self pose) (canvas, foreground) (zip layers images)
       ≫= λ st, Ok st.1)
    = for_each paint canvas opened.
Proof.
  induction 1 as [|image im images opened Hopen _ IH]; intros layers canvas fg Hlen.
  - by destruct layers.
  - destruct layers as [|layer layers]; [done|]. injection Hlen as Hlen.
    simpl zip. rewrite !for_each_cons.
    rewrite <- (blend_step_opened self pose canvas fg layer image im Hopen).
    destruct (blend_step self pose (canvas, fg) (layer, image)) as [[c f]|]; simpl; [|done].
    by apply IH.
Qed.

(** X13: when every layer downloads and every download opens as an image,
    [render] saves the canvas obtained by painting the opened images in the
    order of the layers onto a fresh canvas of the size of the pet; with no
    layer at all it saves the fresh canvas. *)
Theorem render_paints_in_order `{Http} (table : gmap Z (list PetPose)) (self : Neopet)
    (pose : option PetPose) (layers : list AppearanceLayer)
    (images : list (list Byte.byte)) (opened : list Image) :
  _render_layers table self pose = Ok layers →
  gather (Layer_image_url <$> layers) = Ok images →
  Forall2 (λ image im, Image_open image = Ok im) images opened →
  render table self pose = for_each paint (Image_new (canvas_size self)) opened
  ∧ (layers = [] → render table self pose = Ok (Image_new (canvas_size self))).
Proof.
  intros Hlayers Hg Hopen.
  assert (render table self pose = for_each paint (Image_new (canvas_size self)) opened)
    as Hrender.
  { rewrite render_unfold, Hlayers. simpl. rewrite Hg. simpl.
    apply blend_loop_opened; [done|].
    apply gather_Ok, Forall2_length in Hg. by rewrite length_fmap in Hg. }
  split; [done|]. intros ->. rewrite Hrender.
  simpl in Hg. injection Hg as <-. by apply Forall2_nil_inv_l in Hopen as ->.
Qed.

End paint_properties.

Lemma render_paints_in_order_witness :
  render sample_table layered_pet None
  = for_each paint (Image_new (canvas_size layered_pet))
      [toy_image "P" (String.list_byte_of_string "Pal");
       toy_image "1" (String.list_byte_of_string "1bit");
       toy_image "RGBA" (String.list_byte_of_string "rgba")]
  ∧ ([mkLayerAt Z3 "Pal"; mkLayerAt Z4 "1bit"; mkLayerAt Z2 "rgba"] = [] →
     render sample_table layered_pet None = Ok (Image_new (canvas_size layered_pet))).
Proof.
  apply (render_paints_in_order sample_table layered_pet None
           [mkLayerAt Z3 "Pal"; mkLayerAt Z4 "1bit"; mkLayerAt Z2 "rgba"]
           [String.list_byte_of_string "Pal"; String.list_byte_of_string "1bit";
            String.list_byte_of_string "rgba"]).
  - vm_compute. reflexivity.
  - vm_compute. reflexivity.
  - repeat constructor.
Defined.

Example render_layered :
  render sample_table layered_pet None
  = Ok (toy_image "RGBA" (String.list_byte_of_string "Palrgba")).
Proof. vm_compute. reflexivity. Qed.

(** ** The closet URLs *)

Section url_properties.
Variable urlencode : list (string * param) → string.
Variable BASE : string.

Lemma name_param_key (self : Neopet) (k : string) (v : param) :
  (k, v) ∈ name_param self → k = "name".
Proof.
  unfold name_param. destruct (Neopet_name self) as [name|]; [|by intros ?%elem_of_nil].
  case_bool_decide; [by intros ?%elem_of_nil|].
  by intros [= -> _]%list_elem_of_singleton.
Qed.

Lemma elem_of_pose_part (valid : list PetPose) (k : string) (v : param) :
  (k, v) ∈ pose_part valid ↔ k = "pose" ∧ ∃ p rest, valid = p :: rest ∧ v = PPose p.
Proof.
  destruct valid as [|p rest]; simpl.
  - split; [by intros ?%elem_of_nil | by intros (_ & ? & ? & ? & _)].
  - rewrite list_elem_of_singleton. split.
    + intros [= -> ->]. split; [done|]. by exists p, rest.
    + by intros (-> & ? & ? & [= <- <-] & ->).
Qed.

Lemma elem_of_objects_part (items : list Item) (k : string) (v : param) :
  (k, v) ∈ objects_part items
  ↔ k = "objects[]" ∧ items ≠ [] ∧ v = PInts (Item_id <$> items).
Proof.
  destruct items as [|i items]; simpl.
  - split; [by intros ?%elem_of_nil | by intros (_ & ? & _)].
  - rewrite list_elem_of_singleton. split.
    + by intros [= -> ->].
    + by intros (-> & _ & ->).
Qed.

Lemma closet_params_Ok (table : gmap Z (list PetPose)) (self : Neopet)
    (substitutes : list PetPose) :
  table !! Neopet_pose self = Some substitutes →
  closet_params table self
  = Ok (name_param self
        ++ [("species", PInt (Species_id (Neopet_species self)));
            ("color", PInt (Color_id (Neopet_color self)))]
        ++ pose_part (filter (λ p, Z.land (_valid_poses self) p = p) substitutes)
        ++ objects_part (Neopet_items self)).
Proof.
  intros Htable. unfold closet_params.
  rewrite (valid_poses_Ok table self None substitutes Htable). simpl.
  destruct (filter _ substitutes), (Neopet_items self); simpl;
    by rewrite <- ?app_assoc, ?app_nil_r.
Qed.

(** X14: [closet_url] carries a pose exactly when some pose is valid, and then
    it is the first valid pose, the one whose appearance [_render_layers]
    looks for; it lists the ids of all the items of the pet, in order,
    whether or not the conflict scan would keep them. *)
Theorem closet_url_parameters (table : gmap Z (list PetPose)) (self : Neopet)
    (substitutes : list PetPose) :
  table !! Neopet_pose self = Some substitutes →
  ∃ params,
    closet_url urlencode BASE table self
    = Ok (BASE +:+ "/outfits/new?" +:+ urlencode params)
    ∧ (∀ v, ("pose", v) ∈ params
         ↔ ∃ p rest, filter (λ p, Z.land (_valid_poses self) p = p) substitutes = p :: rest
                     ∧ v = PPose p)
    ∧ (∀ v, ("objects[]", v) ∈ params
         ↔ Neopet_items self ≠ [] ∧ v = PInts (Item_id <$> Neopet_items self))
    ∧ (∀ layers, _render_layers table self None = Ok layers →
         ∃ p a, ("pose", PPose p) ∈ params ∧ get_pet_appearance self p = Some a).
Proof.
  intros Htable. unfold closet_url.
  rewrite (closet_params_Ok table self substitutes Htable). simpl.
  eexists. split; [reflexivity|].
  assert (∀ k v, (k, v) ∈ name_param self → k = "name") as Hname
    by apply name_param_key.
  split; [|split].
  - intros v.
    rewrite elem_of_app, !elem_of_cons, elem_of_app, elem_of_pose_part, elem_of_objects_part.
    split.
    + intros [Hn|[[=]|[[=]|[[_ ?]|[[=] _]]]]]; [|done]. by apply Hname in Hn.
    + intros ?. right. right. right. by left.
  - intros v.
    rewrite elem_of_app, !elem_of_cons, elem_of_app, elem_of_pose_part, elem_of_objects_part.
    split.
    + intros [Hn|[[=]|[[=]|[[[=] _]|[_ ?]]]]]; [|done]. by apply Hname in Hn.
    + intros ?. right. right. right. by right.
  - intros layers. unfold _render_layers.
    rewrite (valid_poses_Ok table self None substitutes Htable). simpl.
    destruct (filter _ substitutes) as [|p rest]; [discriminate|].
    destruct (get_pet_appearance self p) as [a|] eqn:Ha; [|discriminate].
    intros _. exists p, a. split; [|done].
    rewrite elem_of_app, !elem_of_cons, elem_of_app. right. right. right. left. by left.
Qed.

Lemma elem_of_state_part (self : Neopet) (valid : list PetPose) (k : string) (v : param) :
  (k, v) ∈ state_part self valid
  ↔ k = "state" ∧ ∃ p rest a, valid = p :: rest ∧ get_pet_appearance self p = Some a
                              ∧ v = PStr (PetAppearance_id a).
Proof.
  unfold state_part. destruct valid as [|p rest].
  { split; [by intros ?%elem_of_nil | by intros (_ & ? & ? & ? & ? & _)]. }
  destruct (get_pet_appearance self p) as [a|] eqn:Ha.
  - rewrite list_elem_of_singleton. split.
    + intros [= -> ->]. split; [done|]. by exists p, rest, a.
    + intros (-> & ? & ? & ? & [= <- <-] & Ha' & ->). congruence.
  - split; [by intros ?%elem_of_nil|].
    intros (_ & ? & ? & ? & [= <- <-] & Ha' & _). congruence.
Qed.

Lemma elem_of_legacy_objects_part (items : list Item) (k : string) (v : param) :
  (k, v) ∈ legacy_objects_part items
  ↔ (k = "objects[]" ∨ k = "closet[]") ∧ items ≠ [] ∧ v = PInts (Item_id <$> items).
Proof.
  destruct items as [|i items]; simpl.
  - split; [by intros ?%elem_of_nil | by intros (_ & ? & _)].
  - rewrite !elem_of_cons. split.
    + intros [[= -> ->]|[[= -> ->]|?%elem_of_nil]]; [auto|auto|done].
    + intros ([->| ->] & _ & ->); auto.
Qed.

Lemma legacy_closet_params_Ok (table : gmap Z (list PetPose)) (self : Neopet)
    (substitutes : list PetPose) :
  table !! Neopet_pose self = Some substitutes →
  legacy_closet_params table self
  = Ok (name_param self
        ++ [("species", PInt (Species_id (Neopet_species self)));
            ("color", PInt (Color_id (Neopet_color self)))]
        ++ state_part self (filter (λ p, Z.land (_valid_poses self) p = p) substitutes)
        ++ legacy_objects_part (Neopet_items self)).
Proof.
  intros Htable. unfold legacy_closet_params, state_part.
  rewrite (valid_poses_Ok table self None substitutes Htable). simpl.
  destruct (filter _ substitutes) as [|p rest], (Neopet_items self); simpl;
    try destruct (get_pet_appearance self p); simpl;
    by rewrite <- ?app_assoc, ?app_nil_r.
Qed.

(** X15: [legacy_closet_url] carries a state exactly when the first valid pose
    has an appearance record, and then it is the id of that record; this is
    exactly when [_render_layers] does not raise [MissingPetAppearance].  Its
    two item lists both hold the ids of all the items of the pet. *)
Theorem legacy_closet_url_parameters (table : gmap Z (list PetPose)) (self : Neopet)
    (substitutes : list PetPose) :
  table !! Neopet_pose self = Some substitutes →
  ∃ params,
    legacy_closet_url urlencode table self
    = Ok ("https://impress.openneo.net/wardrobe#" +:+ urlencode params)
    ∧ (∀ v, ("state", v) ∈ params
         ↔ ∃ p rest a,
             filter (λ p, Z.land (_valid_poses self) p = p) substitutes = p :: rest
             ∧ get_pet_appearance self p = Some a ∧ v = PStr (PetAppearance_id a))
    ∧ ((∃ v, ("state", v) ∈ params)
       ↔ ∀ msg, _render_layers table self None ≠ Raise (MissingPetAppearance msg))
    ∧ (∀ k v, k = "objects[]" ∨ k = "closet[]" →
         ((k, v) ∈ params
          ↔ Neopet_items self ≠ [] ∧ v = PInts (Item_id <$> Neopet_items self))).
Proof.
  intros Htable. unfold legacy_closet_url.
  rewrite (legacy_closet_params_Ok table self substitutes Htable). simpl.
  eexists. split; [reflexivity|].
  assert (∀ k v, (k, v) ∈ name_param self → k = "name") as Hname
    by apply name_param_key.
  assert (∀ v, ("state", v)
               ∈ name_param self
                 ++ [("species", PInt (Species_id (Neopet_species self)));
                     ("color", PInt (Color_id (Neopet_color self)))]
                 ++ state_part self
                      (filter (λ p, Z.land (_valid_poses self) p = p) substitutes)
                 ++ legacy_objects_part (Neopet_items self)
         ↔ ∃ p rest a,
             filter (λ p, Z.land (_valid_poses self) p = p) substitutes = p :: rest
             ∧ get_pet_appearance self p = Some a ∧ v = PStr (PetAppearance_id a))
    as Hstate.
  { intros v. simpl.
    rewrite elem_of_app, !elem_of_cons, elem_of_app, elem_of_state_part,
      elem_of_legacy_objects_part.
    split.
    - intros [Hn|[[=]|[[=]|[[_ ?]|[[[=]|[=]] _]]]]]; [|done]. by apply Hname in Hn.
    - intros ?. right. right. right. by left. }
  split; [exact Hstate|]. split.
  - unfold _render_layers.
    rewrite (valid_poses_Ok table self None substitutes Htable). simpl. split.
    + intros [v (p & rest & a & -> & -> & _)%Hstate] msg.
      destruct (_render_items (Neopet_items self)) as [items|e] eqn:Hi; simpl.
      * intros He. by apply order_layers_Raise in He.
      * intros [= ->]. by apply render_items_Raise in Hi.
    + intros Hno. destruct (filter _ substitutes) as [|p rest] eqn:Hf.
      { by destruct (Hno (missing_message (Species_id (Neopet_species self))
                            (Color_id (Neopet_color self)) true)). }
      destruct (get_pet_appearance self p) as [a|] eqn:Ha.
      * exists (PStr (PetAppearance_id a)). apply Hstate. by exists p, rest, a.
      * by destruct (Hno (missing_message (Species_id (Neopet_species self))
                            (Color_id (Neopet_color self)) false)).
  - intros k v Hk. simpl.
    rewrite elem_of_app, !elem_of_cons, elem_of_app, elem_of_state_part,
      elem_of_legacy_objects_part.
    split.
    + intros [Hn|[[=]|[[=]|[[-> _]|(_ & ? & ?)]]]]; try done.
      * apply Hname in Hn. by destruct Hk; subst.
      * by destruct Hk; subst.
      * by destruct Hk; subst.
      * by destruct Hk.
    + intros [? ->]. right. right. right. by right.
Qed.

End url_properties.

Lemma closet_url_parameters_witness :
  ∃ params,
    closet_url toy_urlencode "https://impress-2020.openneo.net" sample_table dressed_pet
    = Ok ("https://impress-2020.openneo.net" +:+ "/outfits/new?" +:+ toy_urlencode params)
    ∧ (∀ v, ("pose", v) ∈ params
         ↔ ∃ p rest, filter (λ p, Z.land (_valid_poses dressed_pet) p = p) [1; 2; 8; 16]
                     = p :: rest
                     ∧ v = PPose p)
    ∧ (∀ v, ("objects[]", v) ∈ params
         ↔ Neopet_items dressed_pet ≠ []
           ∧ v = PInts (Item_id <$> Neopet_items dressed_pet))
    ∧ (∀ layers, _render_layers sample_table dressed_pet None = Ok layers →
         ∃ p a, ("pose", PPose p) ∈ params ∧ get_pet_appearance dressed_pet p = Some a).
Proof.
  apply (closet_url_parameters toy_urlencode "https://impress-2020.openneo.net"
           sample_table dressed_pet [1; 2; 8; 16]).
  vm_compute. reflexivity.
Defined.

Lemma legacy_closet_url_parameters_witness :
  ∃ params,
    legacy_closet_url toy_urlencode sample_table dressed_pet
    = Ok ("https://impress.openneo.net/wardrobe#" +:+ toy_urlencode params)
    ∧ (∀ v, ("state", v) ∈ params
         ↔ ∃ p rest a,
             filter (λ p, Z.land (_valid_poses dressed_pet) p = p) [1; 2; 8; 16] = p :: rest
             ∧ get_pet_appearance dressed_pet p = Some a ∧ v = PStr (PetAppearance_id a))
    ∧ ((∃ v, ("state", v) ∈ params)
       ↔ ∀ msg, _render_layers sample_table dressed_pet None
                ≠ Raise (MissingPetAppearance msg))
    ∧ (∀ k v, k = "objects[]" ∨ k = "closet[]" →
         ((k, v) ∈ params
          ↔ Neopet_items dressed_pet ≠ []
            ∧ v = PInts (Item_id <$> Neopet_items dressed_pet))).
Proof.
  apply (legacy_closet_url_parameters toy_urlencode sample_table dressed_pet [1; 2; 8; 16]).
  vm_compute. reflexivity.
Defined.

Example closet_url_sample :
  closet_params sample_table dressed_pet
  = Ok [("species", PInt 1); ("color", PInt 8); ("pose", PPose 1);
        ("objects[]", PInts [1; 6; 4])]
  ∧ _render_items (Neopet_items dressed_pet) = Ok [shoe].
Proof. vm_compute. split; reflexivity. Qed.


(** ** The folder of an outfit's images *)

Lemma substring_all (s : string) (m : nat) :
  (String.length s ≤ m)%nat → String.substring 0 m s = s.
Proof.
  revert m. induction s as [|c s IH]; intros [|m] Hlen; simpl in *; try done; try lia.
  f_equal. apply IH. lia.
Qed.

Lemma append_String (c : Ascii.ascii) (s t : string) :
  String c s +:+ t = String c (s +:+ t).
Proof. reflexivity. Qed.

Lemma append_empty (s : string) : s +:+ "" = s.
Proof. induction s as [|c s IH]; [done|]. by rewrite append_String, IH. Qed.

Lemma substring_consecutive (s : string) (n m k : nat) :
  String.substring n m s +:+ String.substring (n + m) k s = String.substring n (m + k) s.
Proof.
  revert n m. induction s as [|c s IH]; intros n m.
  - destruct n, m, k; reflexivity.
  - destruct n as [|n]; simpl.
    + destruct m as [|m]; simpl; [done|]. rewrite append_String. f_equal.
      apply (IH 0%nat m).
    + apply IH.
Qed.

Lemma length_substring_exact (s : string) (n m : nat) :
  (n + m ≤ String.length s)%nat → String.length (String.substring n m s) = m.
Proof.
  revert n m. induction s as [|c s IH]; intros n m Hlen; simpl in *.
  - destruct n, m; simpl; lia.
  - destruct n as [|n]; [destruct m as [|m]; simpl; [done|]|].
    + f_equal. apply (IH 0%nat m). lia.
    + apply IH. lia.
Qed.

Lemma length_zeros (n : nat) : String.length (zeros n) = n.
Proof. induction n; simpl; congruence. Qed.

Lemma length_app_string (s t : string) :
  String.length (s +:+ t) = (String.length s + String.length t)%nat.
Proof.
  induction s as [|c s IH]; [done|]. rewrite append_String. simpl. by rewrite IH.
Qed.

Lemma length_zfill (width : nat) (s : string) :
  String.length (zfill width s) = (width `max` String.length s)%nat.
Proof.
  unfold zfill. destruct s as [|c rest]; simpl.
  - rewrite length_zeros. lia.
  - destruct (is_sign c); simpl; rewrite length_app_string, length_zeros; simpl; lia.
Qed.

Lemma slices_partition (s : string) :
  slice 0 3 s +:+ slice 3 6 s +:+ slice_from 6 s = s.
Proof.
  unfold slice, slice_from. simpl.
  rewrite (substring_consecutive s 3 3), (substring_consecutive s 0 3).
  apply substring_all. lia.
Qed.

(** X16: for an outfit id of at most nine characters, the folder of the image
    URLs is three groups of three characters between slashes, and the groups
    put together are the id padded with zeros to nine characters (for an id
    without sign, the zeros followed by the id); the three URLs are that
    folder followed by the three file names. *)
Theorem image_urls_folder (id : string) :
  (String.length id ≤ 9)%nat →
  ∃ a b c,
    image_urls id
    = (let url := "https://openneo-uploads.s3.amazonaws.com/outfits/"
                    +:+ (a +:+ "/" +:+ b +:+ "/" +:+ c) +:+ "/" in
       [("large", url +:+ "preview.png");
        ("medium", url +:+ "medium_preview.png");
        ("small", url +:+ "small_preview.png")])
    ∧ String.length a = 3%nat ∧ String.length b = 3%nat ∧ String.length c = 3%nat
    ∧ a +:+ b +:+ c = zfill 9 id
    ∧ ((∀ ch rest, id = String ch rest → is_sign ch = false) →
       a +:+ b +:+ c = zeros (9 - String.length id) +:+ id).
Proof.
  intros Hlen.
  pose proof (length_zfill 9 id) as Hz.
  exists (slice 0 3 (zfill 9 id)), (slice 3 6 (zfill 9 id)), (slice_from 6 (zfill 9 id)).
  split; [reflexivity|].
  split; [unfold slice; rewrite length_substring_exact; lia|].
  split; [unfold slice; rewrite length_substring_exact; lia|].
  split; [unfold slice_from; rewrite length_substring_exact; lia|].
  split; [apply slices_partition|].
  intros Hsign. rewrite (slices_partition (zfill 9 id)). unfold zfill.
  destruct id as [|ch rest]; [by rewrite append_empty|].
  by rewrite (Hsign ch rest).
Qed.

Lemma image_urls_folder_witness :
  ∃ a b c,
    image_urls "12345"
    = (let url := "https://openneo-uploads.s3.amazonaws.com/outfits/"
                    +:+ (a +:+ "/" +:+ b +:+ "/" +:+ c) +:+ "/" in
       [("large", url +:+ "preview.png");
        ("medium", url +:+ "medium_preview.png");
        ("small", url +:+ "small_preview.png")])
    ∧ String.length a = 3%nat ∧ String.length b = 3%nat ∧ String.length c = 3%nat
    ∧ a +:+ b +:+ c = zfill 9 "12345"
    ∧ ((∀ ch rest, "12345" = String ch rest → is_sign ch = false) →
       a +:+ b +:+ c = zeros (9 - String.length "12345") +:+ "12345").
Proof. apply (image_urls_folder "12345"). simpl. lia. Defined.

Example image_urls_sample :
  image_urls "12345"
  = [("large", "https://openneo-uploads.s3.amazonaws.com/outfits/000/012/345/preview.png");
     ("medium",
      "https://openneo-uploads.s3.amazonaws.com/outfits/000/012/345/medium_preview.png");
     ("small",
      "https://openneo-uploads.s3.amazonaws.com/outfits/000/012/345/small_preview.png")]
  ∧ id_folder "-42" = "-00/000/042"
  ∧ id_folder "1234567890" = "123/456/7890".
Proof. vm_compute. repeat split; reflexivity. Qed.

(** ** The URL of an item *)








Example Item_url_sample :
  Item_url 38913 (Some "Altador Cup Jersey") 
  = Ok "http://impress.openneo.net/items/38913-Altador-Cup-Jersey".
Proof. vm_compute. reflexivity. Qed.

(** ** The colors of a species and the species of a color *)

Lemma bind_Ok {A B : Type} (a : A) (f : A → result B) : Ok a ≫= f = f a.
Proof. reflexivity. Qed.

Lemma bind_Raise {A B : Type} (e : exn) (f : A → result B) : Raise e ≫= f = Raise e.
Proof. reflexivity. Qed.

Lemma select_step_eq {A : Type} (selected : Z → bool) (registry : gmap Z A)
    (found : list A) (id : Z) :
  select_step selected registry found id
  = if selected id then
      match registry !! id with
      | Some x => Ok (found ++ [x])
      | None => Raise KeyError
      end
    else Ok found.
Proof. reflexivity. Qed.

Lemma select_loop_Ok {A : Type} (selected : Z → bool) (registry : gmap Z A)
    (ids : list Z) (found out : list A) :
  for_each (select_step selected registry) found ids = Ok out
  ↔ ∃ xs, Forall2 (λ id x, registry !! id = Some x)
            (filter (λ id, selected id = true) ids) xs
          ∧ out = found ++ xs.
Proof.
  revert found. induction ids as [|id ids IH]; intros found.
  - simpl. split.
    + intros [= <-]. exists []. split; [constructor | by rewrite app_nil_r].
    + intros (xs & ->%Forall2_nil_inv_l & ->). by rewrite app_nil_r.
  - rewrite for_each_cons, filter_cons, select_step_eq.
    destruct (selected id) eqn:Hsel.
    + rewrite decide_True by done. destruct (registry !! id) as [x|] eqn:Hx.
      * rewrite bind_Ok, IH. split.
        -- intros (xs & Hxs & ->). exists (x :: xs). split; [by constructor|].
           by rewrite <- app_assoc.
        -- intros (xs & (x' & xs' & Hx' & Hxs & ->)%Forall2_cons_inv_l & ->).
           exists xs'. split; [done|]. rewrite <- app_assoc. simpl. congruence.
      * rewrite bind_Raise. split; [discriminate|].
        intros (xs & (x' & xs' & Hx' & _)%Forall2_cons_inv_l & _). congruence.
    + rewrite decide_False, bind_Ok by done. apply IH.
Qed.

Lemma select_loop_Raise {A : Type} (selected : Z → bool) (registry : gmap Z A)
    (ids : list Z) (found : list A) (e : exn) :
  for_each (select_step selected registry) found ids = Raise e
  ↔ e = KeyError ∧ ∃ id, id ∈ ids ∧ selected id = true ∧ registry !! id = None.
Proof.
  revert found. induction ids as [|id ids IH]; intros found.
  - simpl. split; [discriminate|]. by intros (_ & ? & ?%elem_of_nil & _).
  - rewrite for_each_cons, select_step_eq.
    destruct (selected id) eqn:Hsel; [destruct (registry !! id) as [x|] eqn:Hx|];
      rewrite ?bind_Ok, ?bind_Raise.
    + rewrite IH. split.
      * intros (-> & id' & ? & ? & ?). split; [done|]. exists id'. split; [by right|done].
      * intros (-> & id' & [->|?]%elem_of_cons & ? & ?); [congruence|].
        split; [done|]. by exists id'.
    + split.
      * intros [= <-]. split; [done|]. exists id. split; [by left|done].
      * by intros (-> & _).
    + rewrite IH. split.
      * intros (-> & id' & ? & ? & ?). split; [done|]. exists id'. split; [by right|done].
      * intros (-> & id' & [->|?]%elem_of_cons & ? & ?); [congruence|].
        split; [done|]. by exists id'.
Qed.

Lemma split_by_selection {A : Type} (R : Z → A → Prop) (P : Z → Prop)
    `{!∀ id, Decision (P id)} (ids : list Z) (xs ys : list A) :
  Forall2 R (filter P ids) xs → Forall2 R (filter (λ id, ¬ P id) ids) ys →
  ∃ all, Forall2 R ids all ∧ xs `sublist_of` all ∧ ys `sublist_of` all ∧ xs ++ ys ≡ₚ all.
Proof.
  revert xs ys. induction ids as [|id ids IH]; intros xs ys Hx Hy.
  - apply Forall2_nil_inv_l in Hx as ->. apply Forall2_nil_inv_l in Hy as ->.
    exists []. repeat split; constructor.
  - rewrite filter_cons in Hx, Hy. destruct (decide (P id)) as [Hp|Hp].
    + rewrite decide_False in Hy by tauto.
      apply Forall2_cons_inv_l in Hx as (x & xs' & Hr & Hx & ->).
      destruct (IH xs' ys Hx Hy) as (all & Hall & Hsx & Hsy & Hperm).
      exists (x :: all). split; [by constructor|].
      split; [by apply sublist_skip|]. split; [by apply sublist_cons|].
      simpl. by rewrite Hperm.
    + rewrite decide_True in Hy by done.
      apply Forall2_cons_inv_l in Hy as (y & ys' & Hr & Hy & ->).
      destruct (IH xs ys' Hx Hy) as (all & Hall & Hsx & Hsy & Hperm).
      exists (y :: all). split; [by constructor|].
      split; [by apply sublist_cons|]. split; [by apply sublist_skip|].
      by rewrite <- Permutation_middle, Hperm.
Qed.

Section iterator_properties.
Context `{State}.

Lemma color_iterator_Ok (self : Species) (valid : bool) (found : list Color) :
  _color_iterator self valid = Ok found
  ↔ Forall2 (λ id c, _colors !! id = Some c)
      (filter (λ id, check_pair (Species_id self) id = valid) (range_from_1 color_count))
      found.
Proof.
  unfold _color_iterator.
  change (color_step self valid)
    with (select_step (λ id, bool_decide (check_pair (Species_id self) id = valid)) _colors).
  rewrite select_loop_Ok. simpl.
  rewrite (list_filter_iff _ (λ id, check_pair (Species_id self) id = valid))
    by (intros id; apply bool_decide_eq_true).
  split; [by intros (xs & ? & ->) | intros ?; by exists found].
Qed.

Lemma species_iterator_Ok (self : Color) (valid : bool) (found : list Species) :
  _species_iterator self valid = Ok found
  ↔ Forall2 (λ id s, _species !! id = Some s)
      (filter (λ id, check_pair id (Color_id self) = valid) (range_from_1 species_count))
      found.
Proof.
  unfold _species_iterator.
  change (species_step self valid)
    with (select_step (λ id, bool_decide (check_pair id (Color_id self) = valid)) _species).
  rewrite select_loop_Ok. simpl.
  rewrite (list_filter_iff _ (λ id, check_pair id (Color_id self) = valid))
    by (intros id; apply bool_decide_eq_true).
  split; [by intros (xs & ? & ->) | intros ?; by exists found].
Qed.

(** X18: when [colors] and [missing_colors] of a species both return, they
    split the colors registered under the ids 1 to [color_count]: each list
    is in ascending order of id, [colors] holds the colors of the valid
    pairs, [missing_colors] those of the other pairs, and together they are
    all the colors, each once per id. *)
Theorem colors_partition (self : Species) (cs ms : list Color) :
  colors self = Ok cs → missing_colors self = Ok ms →
  Forall2 (λ id c, _colors !! id = Some c)
    (filter (λ id, check_pair (Species_id self) id = true) (range_from_1 color_count)) cs
  ∧ Forall2 (λ id c, _colors !! id = Some c)
      (filter (λ id, check_pair (Species_id self) id = false) (range_from_1 color_count)) ms
  ∧ ∃ all, Forall2 (λ id c, _colors !! id = Some c) (range_from_1 color_count) all
           ∧ cs `sublist_of` all ∧ ms `sublist_of` all ∧ cs ++ ms ≡ₚ all.
Proof.
  intros Hc%color_iterator_Ok Hm%color_iterator_Ok.
  split; [done|]. split; [done|].
  apply (split_by_selection _ (λ id, check_pair (Species_id self) id = true)); [done|].
  rewrite (list_filter_iff _ (λ id, check_pair (Species_id self) id = false)); [done|].
  intros id. by destruct (check_pair (Species_id self) id).
Qed.

(** X19: [colors] raises exactly when the registry lacks the color of a valid
    pair, and then it is [KeyError]; the colors of the pairs that are not
    valid need not be registered (and the other way round for
    [missing_colors]). *)
Theorem color_iterator_KeyError (self : Species) (valid : bool) (e : exn) :
  _color_iterator self valid = Raise e
  ↔ e = KeyError
    ∧ ∃ id, 1 ≤ id ≤ color_count
            ∧ check_pair (Species_id self) id = valid ∧ _colors !! id = None.
Proof.
  unfold _color_iterator.
  change (color_step self valid)
    with (select_step (λ id, bool_decide (check_pair (Species_id self) id = valid)) _colors).
  rewrite select_loop_Raise. unfold range_from_1.
  split; intros (-> & id & Hid & Hsel & Hnone); (split; [done|]); exists id.
  - apply elem_of_seqZ in Hid. apply bool_decide_eq_true in Hsel.
    split; [lia|done].
  - split; [apply elem_of_seqZ; lia|]. split; [by apply bool_decide_eq_true|done].
Qed.

(** X20: when both registries file their entries under the entries' own ids,
    a registered color is among the colors of a registered species exactly
    when that species is among the species of the color. *)
Theorem colors_species_agree (s : Species) (c : Color) (cs : list Color)
    (ss : list Species) :
  (∀ id x, _colors !! id = Some x → Color_id x = id) →
  (∀ id x, _species !! id = Some x → Species_id x = id) →
  _colors !! Color_id c = Some c → 1 ≤ Color_id c ≤ color_count →
  _species !! Species_id s = Some s → 1 ≤ Species_id s ≤ species_count →
  colors s = Ok cs → species c = Ok ss →
  (c ∈ cs ↔ check_pair (Species_id s) (Color_id c) = true)
  ∧ (s ∈ ss ↔ check_pair (Species_id s) (Color_id c) = true)
  ∧ (c ∈ cs ↔ s ∈ ss).
Proof.
  intros Hkc Hks Hc Hcr Hs Hsr Hcs%color_iterator_Ok Hss%species_iterator_Ok.
  assert (c ∈ cs ↔ check_pair (Species_id s) (Color_id c) = true) as H1.
  { split.
    - intros (k & Hk)%list_elem_of_lookup.
      destruct (Forall2_lookup_r _ _ _ _ _ Hcs Hk) as (id & Hid & Hreg).
      apply list_elem_of_lookup_2, list_elem_of_filter in Hid as [Hv _].
      by rewrite <- (Hkc id c Hreg) in Hv.
    - intros Hv.
      assert (Color_id c ∈ filter (λ id, check_pair (Species_id s) id = true)
                             (range_from_1 color_count)) as Hin.
      { apply list_elem_of_filter. split; [done|]. apply elem_of_seqZ. lia. }
      apply list_elem_of_lookup in Hin as [k Hk].
      destruct (Forall2_lookup_l _ _ _ _ _ Hcs Hk) as (c' & Hk' & Hreg).
      apply list_elem_of_lookup_2 in Hk'. congruence. }
  assert (s ∈ ss ↔ check_pair (Species_id s) (Color_id c) = true) as H2.
  { split.
    - intros (k & Hk)%list_elem_of_lookup.
      destruct (Forall2_lookup_r _ _ _ _ _ Hss Hk) as (id & Hid & Hreg).
      apply list_elem_of_lookup_2, list_elem_of_filter in Hid as [Hv _].
      by rewrite <- (Hks id s Hreg) in Hv.
    - intros Hv.
      assert (Species_id s ∈ filter (λ id, check_pair id (Color_id c) = true)
                               (range_from_1 species_count)) as Hin.
      { apply list_elem_of_filter. split; [done|]. apply elem_of_seqZ. lia. }
      apply list_elem_of_lookup in Hin as [k Hk].
      destruct (Forall2_lookup_l _ _ _ _ _ Hss Hk) as (s' & Hk' & Hreg).
      apply list_elem_of_lookup_2 in Hk'. congruence. }
  split; [done|]. split; [done|]. by rewrite H1, H2.
Qed.

End iterator_properties.

Lemma colors_partition_witness :
  Forall2 (λ id c, @_colors toy_state !! id = Some c)
    (filter (λ id, @check_pair toy_state (Species_id acara) id = true)
       (range_from_1 (@color_count toy_state))) [red]
  ∧ Forall2 (λ id c, @_colors toy_state !! id = Some c)
      (filter (λ id, @check_pair toy_state (Species_id acara) id = false)
         (range_from_1 (@color_count toy_state))) [green]
  ∧ ∃ all, Forall2 (λ id c, @_colors toy_state !! id = Some c)
             (range_from_1 (@color_count toy_state)) all
           ∧ [red] `sublist_of` all ∧ [green] `sublist_of` all ∧ [red] ++ [green] ≡ₚ all.
Proof.
  apply (@colors_partition toy_state acara [red] [green]); vm_compute; reflexivity.
Defined.

Example colors_unregistered :
  @colors sparse_state acara = Raise KeyError
  ∧ @missing_colors sparse_state acara = Ok [green]
  ∧ @colors sparse_state kau = Ok [green]
  ∧ @missing_colors sparse_state kau = Raise KeyError.
Proof. vm_compute. repeat split; reflexivity. Qed.

Lemma colors_species_agree_witness :
  (red ∈ [red] ↔ @check_pair toy_state (Species_id acara) (Color_id red) = true)
  ∧ (acara ∈ [acara] ↔ @check_pair toy_state (Species_id acara) (Color_id red) = true)
  ∧ (red ∈ [red] ↔ acara ∈ [acara]).
Proof.
  apply (@colors_species_agree toy_state acara red [red] [acara]).
  - intros id x Hx%elem_of_list_to_map_2.
    repeat (apply elem_of_cons in Hx as [[= -> ->]|Hx]; [done|]). by apply elem_of_nil in Hx.
  - intros id x Hx%elem_of_list_to_map_2.
    repeat (apply elem_of_cons in Hx as [[= -> ->]|Hx]; [done|]). by apply elem_of_nil in Hx.
  - vm_compute. reflexivity.
  - vm_compute. split; discriminate.
  - vm_compute. reflexivity.
  - vm_compute. split; discriminate.
  - vm_compute. reflexivity.
  - vm_compute. reflexivity.
Defined.


(** ** The searchers *)

Lemma set_items_set_items (q q' : list (option Item)) (self : DTISearch) :
  set_items q (set_items q' self) = set_items q self.
Proof. reflexivity. Qed.

Lemma set_items_same (self : DTISearch) : set_items (_items self) self = self.
Proof. by destruct self. Qed.

Section search_properties.
Context {Payload : Type} (payload_truthy : Payload → bool).
Context (Item_rest : gmap string (kwarg Payload) → kwarg Payload → result Item).
Context (fetch_items : DTISearch → result (list Payload)).
Context (post_fetch : DTISearch → list Payload → DTISearch).

(** The call [Item(data=item, state=self._state)] has no keyword [id]. *)
Lemma Item_new_data_state (item : Payload) :
  Item_new Item_rest {[ "data" := Kw_payload item; "state" := Kw_state ]}
  = Raise KeyError.
Proof.
  unfold Item_new. by rewrite lookup_insert_ne, lookup_singleton_ne.
Qed.

Lemma put_room (x : option Item) (self : DTISearch) :
  maxsize self ≤ 0 ∨ Z.of_nat (length (_items self)) < maxsize self →
  put x self = (set_items (_items self ++ [x]) self, Returns ()).
Proof.
  intros Hroom. unfold put, queue_full. rewrite bool_decide_false; [done|lia].
Qed.

Lemma fill_loop_not_found (pre rest : list Payload) (self : DTISearch) :
  Forall (λ item, payload_truthy item = false) pre →
  maxsize self ≤ 0 ∨ Z.of_nat (length (_items self) + length pre) ≤ maxsize self →
  fill_loop payload_truthy Item_rest self (pre ++ rest)
  = fill_loop payload_truthy Item_rest
      (set_items (_items self ++ replicate (length pre) None) self) rest.
Proof.
  intros Hpre. revert self. induction Hpre as [|item pre Hitem _ IH]; intros self Hroom.
  - simpl. by rewrite app_nil_r, set_items_same.
  - simpl. rewrite Hitem, put_room by (simpl in Hroom; lia).
    rewrite IH.
    + simpl. by rewrite set_items_set_items, <- app_assoc.
    + simpl in *. rewrite length_app. simpl. lia.
Qed.

(** X21: when the service answers with entries of which one was found, and
    the queue has room for the entries before the first such entry, which
    were not found ([maxsize] not positive, or at least the length of the
    queue plus their number), [_fill_items] raises [KeyError] at the first
    entry that was found: the constructor of [Item] is called with the
    keywords [data] and [state] and looks for [id].  The entries before it
    have been queued as [None]; [post_fetch] has not run. *)
Theorem fill_items_found (self : DTISearch) (pre rest : list Payload) (item : Payload) :
  fetch_items self = Ok (pre ++ item :: rest) →
  Forall (λ item, payload_truthy item = false) pre →
  payload_truthy item = true →
  maxsize self ≤ 0 ∨ Z.of_nat (length (_items self) + length pre) ≤ maxsize self →
  _fill_items payload_truthy Item_rest fetch_items post_fetch self
  = (set_items (_items self ++ replicate (length pre) None) self, Raises (Error KeyError)).
Proof.
  intros Hfetch Hpre Hitem Hroom. unfold _fill_items. rewrite Hfetch.
  rewrite fill_loop_not_found by done. simpl.
  by rewrite Hitem, Item_new_data_state.
Qed.

(** X22: a page on which nothing was found is queued as that many [None]
    entries, provided the queue has room for them, and [post_fetch] runs; for
    a paginated searcher the offset then moves on by [per_page], and the
    searcher is exhausted exactly when the page was shorter than
    [per_page]. *)
Theorem fill_items_not_found (self : DTISearch) (page : list Payload) :
  fetch_items self = Ok page →
  Forall (λ item, payload_truthy item = false) page →
  maxsize self ≤ 0 ∨ Z.of_nat (length (_items self) + length page) ≤ maxsize self →
  _fill_items payload_truthy Item_rest fetch_items post_fetch self
  = (post_fetch (set_items (_items self ++ replicate (length page) None) self) page,
     Returns ())
  ∧ (let self' :=
       (_fill_items payload_truthy Item_rest fetch_items post_fetch_paginated self).1 in
     offset self' = offset self + per_page self
     ∧ (_exhausted self' = true ↔ Z.of_nat (length page) < per_page self)
     ∧ _items self' = _items self ++ replicate (length page) None).
Proof.
  intros Hfetch Hpage Hroom.
  assert (∀ pf, _fill_items payload_truthy Item_rest fetch_items pf self
    = (pf (set_items (_items self ++ replicate (length page) None) self) page, Returns ()))
    as Hfill.
  { intros pf. unfold _fill_items. rewrite Hfetch.
    rewrite <- (app_nil_r page) at 1. by rewrite fill_loop_not_found. }
  split; [apply Hfill|]. rewrite Hfill. simpl.
  split; [done|]. split; [apply bool_decide_eq_true|done].
Qed.

Lemma put_None_only_None (self self' : DTISearch) (r : outcome ()) :
  only_None self → put None self = (self', r) → only_None self'.
Proof.
  unfold put, only_None. intros Hq. destruct (queue_full self); intros [= <- <-]; [done|].
  simpl. apply Forall_app. split; [done|]. by constructor.
Qed.

Lemma fill_loop_only_None (items : list Payload) (self self' : DTISearch) (r : outcome ()) :
  only_None self →
  fill_loop payload_truthy Item_rest self items = (self', r) → only_None self'.
Proof.
  revert self. induction items as [|item items IH]; intros self Hq; simpl.
  - by intros [= <- <-].
  - destruct (payload_truthy item).
    + rewrite Item_new_data_state. by intros [= <- <-].
    + destruct (put None self) as [self1 r1] eqn:Hput.
      pose proof (put_None_only_None self self1 r1 Hq Hput) as Hq1.
      destruct r1; [by apply IH | by intros [= <- <-] | by intros [= <- <-]].
Qed.

Hypothesis post_fetch_items : ∀ self items, _items (post_fetch self items) = _items self.

Lemma fill_items_only_None (self self' : DTISearch) (r : outcome ()) :
  only_None self →
  _fill_items payload_truthy Item_rest fetch_items post_fetch self = (self', r) →
  only_None self'.
Proof.
  intros Hq. unfold _fill_items. destruct (fetch_items self) as [items|e].
  2:{ by intros [= <- <-]. }
  destruct (fill_loop payload_truthy Item_rest self items) as [self1 r1] eqn:Hloop.
  pose proof (fill_loop_only_None items self self1 r1 Hq Hloop) as Hq1.
  destruct r1; intros [= <- <-]; [|done|done].
  unfold only_None. by rewrite post_fetch_items.
Qed.

Lemma next_only_None (self self' : DTISearch) (r : outcome (option Item)) :
  only_None self →
  next payload_truthy Item_rest fetch_items post_fetch self = (self', r) →
  only_None self' ∧ ∀ x, r = Returns x → x = None.
Proof.
  intros Hq. unfold next.
  destruct (if bool_decide (_items self = []) && negb (_exhausted self)
            then _fill_items payload_truthy Item_rest fetch_items post_fetch self
            else (self, Returns ())) as [self1 r1] eqn:Hfill.
  assert (only_None self1) as Hq1.
  { destruct (bool_decide (_items self = []) && negb (_exhausted self)).
    - by eapply fill_items_only_None.
    - by injection Hfill as <- _. }
  destruct r1 as [[]|e|].
  - destruct (_items self1) as [|x q] eqn:Hitems.
    + intros [= <- <-]. split; [done|discriminate].
    + intros [= <- <-]. unfold only_None in Hq1. rewrite Hitems in Hq1.
      apply Forall_cons in Hq1 as [-> Hq1]. split; [done|]. by intros x [= <-].
  - intros [= <- <-]. split; [done|discriminate].
  - intros [= <- <-]. split; [done|discriminate].
Qed.

(** X23: [flatten] never returns an item.  On a searcher whose queue holds no
    item yet, it ends within its first round, and when it returns, it returns
    the empty list: an entry that was found raises [KeyError] in
    [_fill_items] before it reaches the queue, and an entry that was not
    found ends the loop. *)
Theorem flatten_returns_no_item (self : DTISearch) :
  only_None self →
  ∃ self' r,
    (∀ rounds, flatten payload_truthy Item_rest fetch_items post_fetch (S rounds) self
               = Some (self', r))
    ∧ r ≠ Raises StopAsyncIteration
    ∧ ∀ ret, r = Returns ret → ret = [].
Proof.
  intros Hq. unfold flatten. simpl.
  destruct (next payload_truthy Item_rest fetch_items post_fetch self) as [self1 r1] eqn:Hnext.
  destruct (next_only_None self self1 r1 Hq Hnext) as [_ Hnone].
  destruct r1 as [[item|]|[|e]|].
  - by specialize (Hnone (Some item) eq_refl).
  - exists self1, (Returns []). split; [done|]. split; [done|]. by intros ret [= <-].
  - exists self1, (Returns []). split; [done|]. split; [done|]. by intros ret [= <-].
  - exists self1, (Raises (Error e)). by split.
  - exists self1, Blocks. by split.
Qed.

End search_properties.

Lemma fill_items_found_witness :
  _fill_items toy_truthy toy_Item_rest toy_fetch post_fetch_single (fresh_search 30)
  = (set_items (_items (fresh_search 30) ++ replicate (length [None : option Z]) None)
       (fresh_search 30),
     Raises (Error KeyError)).
Proof.
  apply (fill_items_found toy_truthy toy_Item_rest toy_fetch post_fetch_single
           (fresh_search 30) [None] [] (Some 38913)).
  - reflexivity.
  - repeat constructor.
  - reflexivity.
  - right. simpl. lia.
Defined.

Lemma fill_items_not_found_witness :
  _fill_items toy_truthy toy_Item_rest toy_fetch_not_found post_fetch_single (fresh_search 2)
  = (post_fetch_single
       (set_items (_items (fresh_search 2)
                   ++ replicate (length [None : option Z; None]) None) (fresh_search 2))
       ([None; None] : list (option Z)),
     Returns ())
  ∧ (let self' :=
       (_fill_items toy_truthy toy_Item_rest toy_fetch_not_found post_fetch_paginated
          (fresh_search 2)).1 in
     offset self' = offset (fresh_search 2) + per_page (fresh_search 2)
     ∧ (_exhausted self' = true
        ↔ Z.of_nat (length [None : option Z; None]) < per_page (fresh_search 2))
     ∧ _items self'
       = _items (fresh_search 2) ++ replicate (length [None : option Z; None]) None).
Proof.
  apply (fill_items_not_found toy_truthy toy_Item_rest toy_fetch_not_found
           post_fetch_single (fresh_search 2) [None; None]).
  - reflexivity.
  - repeat constructor.
  - right. simpl. lia.
Defined.

Lemma flatten_returns_no_item_witness :
  ∃ self' r,
    (∀ rounds, flatten toy_truthy toy_Item_rest toy_fetch post_fetch_single (S rounds)
                 (fresh_search 30)
               = Some (self', r))
    ∧ r ≠ Raises StopAsyncIteration
    ∧ ∀ ret, r = Returns ret → ret = [].
Proof.
  apply (flatten_returns_no_item toy_truthy toy_Item_rest toy_fetch post_fetch_single).
  - reflexivity.
  - constructor.
Defined.

Example flatten_samples :
  flatten toy_truthy toy_Item_rest toy_fetch post_fetch_single 5 (fresh_search 30)
  = Some (set_items [None] (fresh_search 30), Raises (Error KeyError))
  ∧ flatten toy_truthy toy_Item_rest toy_fetch_not_found post_fetch_single 5 (fresh_search 2)
    = Some (post_fetch_single (set_items [None] (fresh_search 2))
              ([None; None] : list (option Z)), Returns [])
  ∧ flatten toy_truthy toy_Item_rest toy_fetch_not_found post_fetch_single 5 (fresh_search 1)
    = Some (set_items [None] (fresh_search 1), Blocks).
Proof. vm_compute. repeat split; reflexivity. Qed.


(** ** Who survives the conflict scan *)

(** X24: in a list of items with pairwise distinct ids, each with appearance
    data, an item survives the conflict scan exactly when no item that comes
    after it in the list conflicts with it; what comes before it does not
    matter. *)
Theorem render_items_survivors (l1 l2 : list Item) (t : Item) :
  NoDup (Item_id <$> (l1 ++ t :: l2)) →
  (∀ i, i ∈ l1 ++ t :: l2 → has_appearance i) →
  ∃ out, _render_items (l1 ++ t :: l2) = Ok out
    ∧ (t ∈ out ↔ ∀ c, c ∈ l2 → spec_conflict c t = false).
Proof.
  intros Hnd Happ.
  destruct (render_items_total _ Happ) as [out Hrun]. exists out. split; [done|].
  apply render_items_resolve in Hrun as (-> & _ & _); [|by apply NoDup_ids_consistent].
  rewrite spec_plain_resolve by done.
  apply NoDup_ids_NoDup in Hnd. apply NoDup_app in Hnd as (_ & _ & Hnd).
  apply NoDup_cons in Hnd as [Ht _].
  unfold plain_resolve.
  replace (l1 ++ t :: l2) with (l1 ++ [t] ++ l2) by done.
  rewrite !fold_left_app. simpl. rewrite elem_of_plain_fold by done.
  split; [by intros [_ ?]|]. intros ?. split; [|done].
  apply elem_of_plain_insert. by right.
Qed.

Lemma render_items_survivors_witness :
  ∃ out, _render_items ([hatA] ++ shoe :: [hatB; charm]) = Ok out
    ∧ (shoe ∈ out ↔ ∀ c, c ∈ [hatB; charm] → spec_conflict c shoe = false).
Proof.
  apply (render_items_survivors [hatA] [hatB; charm] shoe).
  - by_evaluation.
  - intros i Hi. all_members Hi; by eexists.
Defined.
